(** * certmagic-s3: the S3 storage adapter of [s3.go]

    The adapter maps the certmagic storage contract (Store, Load, Delete,
    Exists, List, Stat, Lock, Unlock) onto calls of a minio client.  The
    adapter's operations are embedded as programs over the client's calls;
    a program is run against any implementation of the client, and an
    in-memory bucket store is given as one such implementation.  The
    functions of packages [path] and [strings] that the adapter calls
    are embedded from the Go standard library.

    Go strings are [string], byte slices are [list Byte.byte], [int64] and
    [int] values are [Z], a nil [error] is [None]. *)

From Stdlib Require Import String Ascii ZArith List Lia Bool.
From stdpp Require Import gmap strings.
Import ListNotations.
Open Scope string_scope.

(** ** Package [strings] of the Go standard library *)

Module strings.

(** [s[n:]] for [n <= len(s)]. *)
Fixpoint drop (n : nat) (s : string) : string :=
  match n, s with
  | O, _ => s
  | S n', String _ s' => drop n' s'
  | S _, "" => ""
  end.

(** [len(s) >= len(prefix) && s[:len(prefix)] == prefix] *)
Fixpoint HasPrefix (s prefix : string) {struct prefix} : bool :=
  match prefix, s with
  | "", _ => true
  | String a prefix', String b s' => Ascii.eqb a b && HasPrefix s' prefix'
  | String _ _, "" => false
  end.

(** [len(s) >= len(suffix) && s[len(s)-len(suffix):] == suffix] *)
Definition HasSuffix (s suffix : string) : bool :=
  (String.length suffix <=? String.length s)%nat
  && String.eqb (drop (String.length s - String.length suffix) s) suffix.

Definition CutPrefix (s prefix : string) : string * bool :=
  if negb (HasPrefix s prefix) then (s, false)
  else (drop (String.length prefix) s, true).

Fixpoint Join (elems : list string) (sep : string) : string :=
  match elems with
  | [] => ""
  | [e] => e
  | e :: rest => e ++ sep ++ Join rest sep
  end.

End strings.

(** ** Package [path] of the Go standard library *)

Module path.

(** The [lazybuf] of [Clean] is a byte buffer [out] whose write index
    [out.w] is its length. *)
Definition buf_append (out : string) (c : ascii) : string :=
  out ++ String c "".

Definition index (out : string) (i : nat) : ascii :=
  match String.get i out with
  | Some c => c
  | None => "000"%char
  end.

(** [r == n || path[r] == '/'], for the input that remains at [r]. *)
Definition at_end (rest : string) : bool :=
  match rest with
  | "" => true
  | String c _ => Ascii.eqb c "/"
  end.

(** [for out.w > dotdot && out.index(out.w) != '/' { out.w-- }] *)
Fixpoint backtrack (out : string) (dotdot w : nat) : nat :=
  match w with
  | O => O
  | S w' =>
      if (dotdot <? w)%nat && negb (Ascii.eqb (index out w) "/")
      then backtrack out dotdot w'
      else w
  end.

(** [for ; r < n && path[r] != '/'; r++ { out.append(path[r]) }], after
    which the enclosing loop goes on: at the end of the input it stops,
    at a slash it skips the slash ([continue] receives what follows). *)
Definition copy_element (continue : string -> string -> string)
  : string -> string -> string :=
  fix copy (p o : string) {struct p} : string :=
    match p with
    | "" => o
    | String d p' =>
        if Ascii.eqb d "/" then continue p' o
        else copy p' (buf_append o d)
    end.

(** [if rooted && out.w != 1 || !rooted && out.w != 0 { out.append('/') }] *)
Definition add_slash (rooted : bool) (out : string) : string :=
  if rooted && negb (String.length out =? 1)%nat
     || negb rooted && negb (String.length out =? 0)%nat
  then buf_append out "/" else out.

(** The [..] element: the buffer and [dotdot] after it. *)
Definition dotdot_element (rooted : bool) (out : string) (dotdot : nat)
  : string * nat :=
  if (dotdot <? String.length out)%nat then
    let w := backtrack out dotdot (String.length out - 1) in
    (substring 0 w out, dotdot)
  else if negb rooted then
    let out1 :=
      if (0 <? String.length out)%nat then buf_append out "/" else out in
    let out2 := buf_append (buf_append out1 ".") "." in
    (out2, String.length out2)
  else (out, dotdot).

(** The loop [for r < n { switch { ... } }] of [Clean]; [path] is the
    input from index [r] on. *)
Fixpoint clean_loop (rooted : bool) (path out : string) (dotdot : nat)
  {struct path} : string :=
  match path with
  | "" => out
  | String c rest =>
      let real_element :=
        copy_element (fun p' o => clean_loop rooted p' o dotdot) path
          (add_slash rooted out) in
      if Ascii.eqb c "/" then
        clean_loop rooted rest out dotdot
      else if Ascii.eqb c "." && at_end rest then
        clean_loop rooted rest out dotdot
      else
        match rest with
        | String c2 rest2 =>
            if Ascii.eqb c "." && Ascii.eqb c2 "." && at_end rest2 then
              let '(out', dotdot') := dotdot_element rooted out dotdot in
              clean_loop rooted rest2 out' dotdot'
            else real_element
        | "" => real_element
        end
  end.

Definition Clean (path : string) : string :=
  match path with
  | "" => "."
  | String c rest =>
      let rooted := Ascii.eqb c "/" in
      let out :=
        if rooted then clean_loop true rest "/" 1
        else clean_loop false path "" 0 in
      if (String.length out =? 0)%nat then "." else out
  end.

Definition Join (elem : list string) : string :=
  let size := fold_left (fun size e => (size + String.length e)%nat) elem O in
  if (size =? 0)%nat then ""
  else
    let buf :=
      fold_left
        (fun buf e =>
           if (0 <? String.length buf)%nat || negb (String.eqb e "") then
             (if (0 <? String.length buf)%nat then buf_append buf "/" else buf)
             ++ e
           else buf)
        elem "" in
    Clean buf.

(** A path element that [Clean] keeps as it is: not empty, without a
    slash, and neither [.] nor [..]. *)
Fixpoint no_slash (e : string) : bool :=
  match e with
  | "" => true
  | String c e' => negb (Ascii.eqb c "/") && no_slash e'
  end.

Definition is_element (e : string) : bool :=
  negb (String.eqb e "") && no_slash e
  && negb (String.eqb e ".") && negb (String.eqb e "..").

(** A non-empty list of such elements; joined by slashes it is a clean
    relative path. *)
Definition elements (es : list string) : bool :=
  negb (Nat.eqb (List.length es) 0) && forallb is_element es.

End path.

(** ** Values shared by the adapter and its collaborators *)

(** [context.Context]: a request-scoped token, handed on unchanged. *)
Variant Context : Type := Background | Request (id : nat).

(** A non-nil Go [error].  [ErrNotExist] is the sentinel [fs.ErrNotExist];
    [ErrorResponse] is [minio.ErrorResponse]; [ErrTransport] stands for
    network and context failures. *)
Inductive error : Type :=
| ErrNotExist
| ErrorResponse (code message : string)
| ErrTransport (message : string).

Definition bytes : Type := list Byte.byte.

(** [time.Time], counted from the zero [Time]. *)
Definition Time : Type := Z.

(** ** The parts of package [minio] the adapter uses *)

Module minio.

Record ObjectInfo : Type := mkObjectInfo {
  Key : string;
  LastModified : Time;
  Size : Z;
  Err : option error
}.

Record UploadInfo : Type := mkUploadInfo {
  UploadBucket : string;
  UploadKey : string;
  UploadSize : Z
}.

(** [*minio.Object], the handle [GetObject] returns. *)
Record Object : Type := mkObject {
  ObjectBucket : string;
  ObjectName : string
}.

Variant PutObjectOptions : Type := mkPutObjectOptions.
Variant GetObjectOptions : Type := mkGetObjectOptions.
Variant RemoveObjectOptions : Type := mkRemoveObjectOptions.
Variant StatObjectOptions : Type := mkStatObjectOptions.

Record ListObjectsOptions : Type := mkListObjectsOptions {
  Prefix : string;
  Recursive : bool
}.

(** What the adapter sees of the channel [ListObjects] returns:
    [len(objects)] at the moment [keys] is allocated, and the values
    received from the channel until it is closed. *)
Record ObjectChannel : Type := mkObjectChannel {
  chan_len : nat;
  chan_items : list ObjectInfo
}.

End minio.

(** ** The part of package [certmagic] the adapter uses *)

Module certmagic.

Record KeyInfo : Type := mkKeyInfo {
  Key : string;
  Modified : Time;
  Size : Z;
  IsTerminal : bool
}.

(** [certmagic.KeyInfo{}] *)
Definition zero : KeyInfo :=
  {| Key := ""; Modified := 0%Z; Size := 0%Z; IsTerminal := false |}.

End certmagic.

(** ** Calls that leave the adapter *)

(** An argument of [fmt.Sprintf]. *)
Variant fmt_arg : Type :=
| ArgS (s : string)
| ArgD (n : Z)
| ArgT (b : bool)
| ArgV (e : option error).

(** [fmt.Sprintf(format, args...)], kept unformatted. *)
Record message : Type := Sprintf {
  format : string;
  args : list fmt_arg
}.

(** The calls on [s3.client] and [s3.logger], and [io.ReadAll] and [Close]
    on a fetched object. *)
Variant call : Type :=
| PutObject (ctx : Context) (bucketName objectName : string)
    (reader : bytes) (objectSize : Z) (opts : minio.PutObjectOptions)
| GetObject (ctx : Context) (bucketName objectName : string)
    (opts : minio.GetObjectOptions)
| ReadAll (object : minio.Object)
| Close (object : minio.Object)
| RemoveObject (ctx : Context) (bucketName objectName : string)
    (opts : minio.RemoveObjectOptions)
| StatObject (ctx : Context) (bucketName objectName : string)
    (opts : minio.StatObjectOptions)
| ListObjects (ctx : Context) (bucketName : string)
    (opts : minio.ListObjectsOptions)
| LogDebug (msg : message)
| LogError (msg : message).

Definition response (c : call) : Type :=
  match c with
  | PutObject _ _ _ _ _ _ => (minio.UploadInfo * option error)%type
  | GetObject _ _ _ _ => (minio.Object + error)%type
  | ReadAll _ => (bytes * option error)%type
  | Close _ => option error
  | RemoveObject _ _ _ _ => option error
  | StatObject _ _ _ _ => (minio.ObjectInfo * option error)%type
  | ListObjects _ _ _ => minio.ObjectChannel
  | LogDebug _ => unit
  | LogError _ => unit
  end.

(** A program: it returns, or makes a call and goes on with the answer. *)
Inductive Prog (A : Type) : Type :=
| Ret (a : A)
| Do (c : call) (k : response c -> Prog A).

Arguments Ret {A} a.
Arguments Do {A} c k.

Fixpoint bind {A B : Type} (p : Prog A) (f : A -> Prog B) : Prog B :=
  match p with
  | Ret a => f a
  | Do c k => Do c (fun r => bind (k r) f)
  end.

Definition perform (c : call) : Prog (response c) := Do c Ret.

Declare Scope prog_scope.
Delimit Scope prog_scope with prog.
Notation "x <- p ;; q" := (bind p (fun x => q))
  (at level 100, p at next level, right associativity) : prog_scope.
Notation "p ;; q" := (bind p (fun _ => q))
  (at level 100, right associativity) : prog_scope.
Open Scope prog_scope.

(** ** The adapter ([s3.go], lines 37 to 49 and 191 to 293)

    [logger] and [client] of the [S3] struct are the two handles the calls
    above go to; the fields below are its configuration. *)

Record S3 : Type := mkS3 {
  Host : string;
  Bucket : string;
  AccessID : string;
  SecretKey : string;
  Prefix : string;
  Insecure : bool;
  UseIamProvider : bool
}.

(** [return path.Join(s3.Prefix, key)] *)
Definition KeyPrefix (s3 : S3) (key : string) : string :=
  path.Join [Prefix s3; key].

(** [cutted, _ := strings.CutPrefix(key, s3.Prefix); return cutted] *)
Definition CutKeyPrefix (s3 : S3) (key : string) : string :=
  let '(cutted, _) := strings.CutPrefix key (Prefix s3) in
  cutted.

(** [Lock] and [Unlock]: [return nil]. *)
Definition Lock (s3 : S3) (ctx : Context) (key : string)
  : Prog (option error) :=
  Ret None.

Definition Unlock (s3 : S3) (ctx : Context) (key : string)
  : Prog (option error) :=
  Ret None.

(** [Store]: the value goes to [PutObject] under the prefixed key with its
    length; the [UploadInfo] is dropped and the error returned. *)
Definition Store (s3 : S3) (ctx : Context) (key : string) (value : bytes)
  : Prog (option error) :=
  let key := KeyPrefix s3 key in
  let length := Z.of_nat (List.length value) in
  perform (LogDebug (Sprintf "Store: %s, %d bytes" [ArgS key; ArgD length])) ;;
  r <- perform (PutObject ctx (Bucket s3) key value length
                  minio.mkPutObjectOptions) ;;
  let '(_, err) := r in
  Ret err.

(** [Exists]: [exists := err == nil] of [StatObject] on the prefixed key. *)
Definition Exists (s3 : S3) (ctx : Context) (key : string) : Prog bool :=
  let key := KeyPrefix s3 key in
  r <- perform (StatObject ctx (Bucket s3) key minio.mkStatObjectOptions) ;;
  let '(_, err) := r in
  let exists_ := match err with None => true | Some _ => false end in
  perform (LogDebug (Sprintf "Check exists: %s, %t" [ArgS key; ArgT exists_])) ;;
  Ret exists_.

(** [Load]: [Exists] is asked with the key as given; then the key is
    prefixed, the object fetched and read to its end; [defer object.Close()]
    runs once [io.ReadAll] has returned. *)
Definition Load (s3 : S3) (ctx : Context) (key : string)
  : Prog (bytes * option error) :=
  exists_ <- Exists s3 ctx key ;;
  if negb exists_ then Ret ([], Some ErrNotExist)
  else
    let key := KeyPrefix s3 key in
    perform (LogDebug (Sprintf "Load key: %s" [ArgS key])) ;;
    r <- perform (GetObject ctx (Bucket s3) key minio.mkGetObjectOptions) ;;
    match r with
    | inr err => Ret ([], Some err)
    | inl object =>
        result <- perform (ReadAll object) ;;
        perform (Close object) ;;
        Ret result
    end.

Definition Delete (s3 : S3) (ctx : Context) (key : string)
  : Prog (option error) :=
  let key := KeyPrefix s3 key in
  perform (LogDebug (Sprintf "Delete key: %s" [ArgS key])) ;;
  perform (RemoveObject ctx (Bucket s3) key minio.mkRemoveObjectOptions).

(** [List]: [keys := make([]string, len(objects))] is [len(objects)] empty
    strings, to which the cut key of every received value is appended; the
    [Err] field of a value is not read, and the error returned is nil. *)
Definition List (s3 : S3) (ctx : Context) (prefix : string) (recursive : bool)
  : Prog (list string * option error) :=
  objects <- perform (ListObjects ctx (Bucket s3)
                        {| minio.Prefix := KeyPrefix s3 prefix;
                           minio.Recursive := recursive |}) ;;
  let keys := repeat "" (minio.chan_len objects) in
  let keys :=
    fold_left
      (fun keys object => (keys ++ [CutKeyPrefix s3 (minio.Key object)])%list)
      (minio.chan_items objects) keys in
  Ret (keys, None).

(** [Stat]: on an error of [StatObject] the error is logged and
    [certmagic.KeyInfo{}, nil] returned; otherwise the [KeyInfo] is filled
    from the [ObjectInfo]. *)
Definition Stat (s3 : S3) (ctx : Context) (key : string)
  : Prog (certmagic.KeyInfo * option error) :=
  let key := KeyPrefix s3 key in
  r <- perform (StatObject ctx (Bucket s3) key minio.mkStatObjectOptions) ;;
  let '(object, err) := r in
  match err with
  | Some e =>
      perform (LogError (Sprintf "Stat key: %s, error: %v" [ArgS key; ArgV err])) ;;
      Ret (certmagic.zero, None)
  | None =>
      perform (LogDebug (Sprintf "Stat key: %s, size: %d bytes"
                        [ArgS key; ArgD (minio.Size object)])) ;;
      Ret ({| certmagic.Key := minio.Key object;
              certmagic.Modified := minio.LastModified object;
              certmagic.Size := minio.Size object;
              certmagic.IsTerminal := strings.HasSuffix (minio.Key object) "/" |},
           err)
  end.


(** ** Running a program against a client *)

Section Run.

Context {W : Type}.

(** An implementation of the client and the logger over a state [W]. *)
Variable client : forall c : call, W -> W * response c.

Fixpoint run {A : Type} (p : Prog A) (w : W) : W * A :=
  match p with
  | Ret a => (w, a)
  | Do c k => let '(w', r) := client c w in run (k r) w'
  end.

(** The calls a program makes, in order. *)
Fixpoint trace {A : Type} (p : Prog A) (w : W) : list call :=
  match p with
  | Ret _ => []
  | Do c k => let '(w', r) := client c w in c :: trace (k r) w'
  end.

End Run.

(** The object a call names, for the calls that name one. *)
Definition object_name (c : call) : option (string * string) :=
  match c with
  | PutObject _ bucketName objectName _ _ _
  | GetObject _ bucketName objectName _
  | RemoveObject _ bucketName objectName _
  | StatObject _ bucketName objectName _ => Some (bucketName, objectName)
  | _ => None
  end.

Definition object_names (calls : list call) : list (string * string) :=
  omap object_name calls.

(** Calls that ask the store to change an object. *)
Definition mutates (c : call) : bool :=
  match c with
  | PutObject _ _ _ _ _ _ | RemoveObject _ _ _ _ => true
  | _ => false
  end.

(** Calls that leave the stored objects alone. *)
Definition reads (c : call) : Prop := mutates c = false.

(** Every call the program can make satisfies [P], whatever the answers. *)
Inductive calls_only (P : call -> Prop) {A : Type} : Prog A -> Prop :=
| calls_only_Ret (a : A) : calls_only P (Ret a)
| calls_only_Do (c : call) (k : response c -> Prog A) :
    P c -> (forall r, calls_only P (k r)) -> calls_only P (Do c k).

(** Errors that are not the [fs.ErrNotExist] sentinel. *)
Definition generic (e : option error) : Prop := e <> Some ErrNotExist.

(** The client hands out no [fs.ErrNotExist] when an object is fetched. *)
Definition fetch_errors_generic {W : Type}
  (client : forall c : call, W -> W * response c) : Prop :=
  (forall ctx b n o w e,
      snd (client (GetObject ctx b n o) w) = inr e -> e <> ErrNotExist)
  /\ (forall object w, generic (snd (snd (client (ReadAll object) w)))).

(** ** The storage contract as a sequence of requests *)

Variant operation : Type :=
| OpLock (ctx : Context) (key : string)
| OpUnlock (ctx : Context) (key : string)
| OpStore (ctx : Context) (key : string) (value : bytes)
| OpLoad (ctx : Context) (key : string)
| OpDelete (ctx : Context) (key : string)
| OpExists (ctx : Context) (key : string)
| OpList (ctx : Context) (prefix : string) (recursive : bool)
| OpStat (ctx : Context) (key : string).

Variant outcome : Type :=
| OutError (err : option error)
| OutBytes (value : bytes) (err : option error)
| OutBool (b : bool)
| OutKeys (keys : list string) (err : option error)
| OutInfo (info : certmagic.KeyInfo) (err : option error).

Definition operate (s3 : S3) (op : operation) : Prog outcome :=
  match op with
  | OpLock ctx key => err <- Lock s3 ctx key ;; Ret (OutError err)
  | OpUnlock ctx key => err <- Unlock s3 ctx key ;; Ret (OutError err)
  | OpStore ctx key value => err <- Store s3 ctx key value ;; Ret (OutError err)
  | OpLoad ctx key => r <- Load s3 ctx key ;; Ret (OutBytes (fst r) (snd r))
  | OpDelete ctx key => err <- Delete s3 ctx key ;; Ret (OutError err)
  | OpExists ctx key => b <- Exists s3 ctx key ;; Ret (OutBool b)
  | OpList ctx prefix recursive =>
      r <- List s3 ctx prefix recursive ;; Ret (OutKeys (fst r) (snd r))
  | OpStat ctx key => r <- Stat s3 ctx key ;; Ret (OutInfo (fst r) (snd r))
  end.

Fixpoint operate_all (s3 : S3) (ops : list operation) : Prog (list outcome) :=
  match ops with
  | [] => Ret []
  | op :: ops' =>
      r <- operate s3 op ;;
      rs <- operate_all s3 ops' ;;
      Ret (r :: rs)
  end.

Definition is_lock (op : operation) : bool :=
  match op with
  | OpLock _ _ | OpUnlock _ _ => true
  | _ => false
  end.

(** The operation writes or removes the object at [objectName]. *)
Definition writes_to (s3 : S3) (objectName : string) (op : operation) : bool :=
  match op with
  | OpStore _ key _ | OpDelete _ key => String.eqb (KeyPrefix s3 key) objectName
  | _ => false
  end.

(** ** An in-memory object store behind the client

    Buckets hold objects by name.  [faults] schedules failures: every call
    that goes to the store takes the head of the schedule and fails with
    it when it is a fault.  The logger appends to [logged]. *)

Module mem.

Record StoredObject : Type := mkStoredObject {
  content : bytes;
  modified : Time
}.

(** A failure of the store or of the way to it. *)
Variant fault : Type :=
| FaultResponse (code message : string)
| FaultTransport (message : string).

Definition fault_error (f : fault) : error :=
  match f with
  | FaultResponse code message => ErrorResponse code message
  | FaultTransport message => ErrTransport message
  end.

Record World : Type := mkWorld {
  objects : gmap (string * string) StoredObject;
  clock : Time;
  faults : list (option fault);
  logged : list message
}.

Definition next_fault (w : World) : option error * World :=
  match faults w with
  | [] => (None, w)
  | f :: fs =>
      (option_map fault_error f,
       {| objects := objects w; clock := clock w; faults := fs;
          logged := logged w |})
  end.

Definition log (msg : message) (w : World) : World :=
  {| objects := objects w; clock := clock w; faults := faults w;
     logged := (logged w ++ [msg])%list |}.

Definition put (bucketName objectName : string) (data : bytes) (w : World)
  : World :=
  {| objects :=
       <[(bucketName, objectName) :=
           {| content := data; modified := clock w |}]> (objects w);
     clock := (clock w + 1)%Z; faults := faults w; logged := logged w |}.

Definition remove (bucketName objectName : string) (w : World) : World :=
  {| objects := delete (bucketName, objectName) (objects w);
     clock := clock w; faults := faults w; logged := logged w |}.

Definition no_such_key : error :=
  ErrorResponse "NoSuchKey" "The specified key does not exist.".

Definition zero_info : minio.ObjectInfo :=
  {| minio.Key := ""; minio.LastModified := 0%Z; minio.Size := 0%Z;
     minio.Err := None |}.

Definition zero_upload : minio.UploadInfo :=
  {| minio.UploadBucket := ""; minio.UploadKey := ""; minio.UploadSize := 0%Z |}.

Definition info_of (objectName : string) (o : StoredObject) : minio.ObjectInfo :=
  {| minio.Key := objectName; minio.LastModified := modified o;
     minio.Size := Z.of_nat (List.length (content o)); minio.Err := None |}.

(** Listing: the objects of the bucket whose name starts with the prefix,
    in the order of their names; without [Recursive], names are cut after
    the first slash that follows the prefix and reported once. *)
Fixpoint insert_sorted (k : string) (ks : list string) : list string :=
  match ks with
  | [] => [k]
  | k' :: ks' =>
      if String.eqb k k' then ks
      else if String.leb k k' then k :: ks
      else k' :: insert_sorted k ks'
  end.

Fixpoint upto_slash (s : string) : option string :=
  match s with
  | "" => None
  | String c s' =>
      if Ascii.eqb c "/" then Some "/"
      else option_map (String c) (upto_slash s')
  end.

Definition listed_name (prefix : string) (recursive : bool) (name : string)
  : string :=
  if recursive then name
  else
    match upto_slash (strings.drop (String.length prefix) name) with
    | Some dir => prefix ++ dir
    | None => name
    end.

Definition listing (bucketName : string) (opts : minio.ListObjectsOptions)
  (w : World) : list minio.ObjectInfo :=
  let names :=
    fold_right
      (fun (entry : string * string * StoredObject) acc =>
         let '(b, n, _) := entry in
         if String.eqb b bucketName && strings.HasPrefix n (minio.Prefix opts)
         then insert_sorted
                (listed_name (minio.Prefix opts) (minio.Recursive opts) n) acc
         else acc)
      [] (map_to_list (objects w)) in
  map (fun n =>
         match objects w !! (bucketName, n) with
         | Some o => info_of n o
         | None =>
             {| minio.Key := n; minio.LastModified := 0%Z; minio.Size := 0%Z;
                minio.Err := None |}
         end)
    names.

Definition client (c : call) : World -> World * response c :=
  match c as c0 return World -> World * response c0 with
  | PutObject ctx bucketName objectName reader objectSize opts => fun w =>
      let '(fault, w) := next_fault w in
      match fault with
      | Some e => (w, (zero_upload, Some e))
      | None =>
          if (objectSize =? Z.of_nat (List.length reader))%Z then
            (put bucketName objectName reader w,
             ({| minio.UploadBucket := bucketName;
                 minio.UploadKey := objectName;
                 minio.UploadSize := objectSize |}, None))
          else
            (w, (zero_upload,
                 Some (ErrorResponse "IncompleteBody"
                         "The request body does not match the given size.")))
      end
  | GetObject ctx bucketName objectName opts => fun w =>
      let '(fault, w) := next_fault w in
      match fault with
      | Some e => (w, inr e)
      | None =>
          (w, inl {| minio.ObjectBucket := bucketName;
                     minio.ObjectName := objectName |})
      end
  | ReadAll object => fun w =>
      let '(fault, w) := next_fault w in
      match fault with
      | Some e => (w, ([], Some e))
      | None =>
          match objects w !! (minio.ObjectBucket object, minio.ObjectName object) with
          | Some o => (w, (content o, None))
          | None => (w, ([], Some no_such_key))
          end
      end
  | Close object => fun w => (w, None)
  | RemoveObject ctx bucketName objectName opts => fun w =>
      let '(fault, w) := next_fault w in
      match fault with
      | Some e => (w, Some e)
      | None => (remove bucketName objectName w, None)
      end
  | StatObject ctx bucketName objectName opts => fun w =>
      let '(fault, w) := next_fault w in
      match fault with
      | Some e => (w, (zero_info, Some e))
      | None =>
          match objects w !! (bucketName, objectName) with
          | Some o => (w, (info_of objectName o, None))
          | None => (w, (zero_info, Some no_such_key))
          end
      end
  | ListObjects ctx bucketName opts => fun w =>
      let '(fault, w) := next_fault w in
      match fault with
      | Some e =>
          (w, {| minio.chan_len := 0;
                 minio.chan_items :=
                   [{| minio.Key := ""; minio.LastModified := 0%Z;
                       minio.Size := 0%Z; minio.Err := Some e |}] |})
      | None =>
          (w, {| minio.chan_len := 0;
                 minio.chan_items := listing bucketName opts w |})
      end
  | LogDebug msg => fun w => (log msg w, tt)
  | LogError msg => fun w => (log msg w, tt)
  end.

(** An empty store on which no call fails. *)
Definition empty : World :=
  {| objects := ∅; clock := 1%Z; faults := []; logged := [] |}.

(** The store fails none of its next [n] calls. *)
Definition reliable (n : nat) (w : World) : Prop :=
  Forall (fun f => f = None) (take n (faults w)).

End mem.

(** The configuration of the README: prefix [ssl]. *)
Definition example_s3 : S3 :=
  {| Host := "s3.example.com"; Bucket := "my-cert-bucket";
     AccessID := "Access ID"; SecretKey := "Secret Key"; Prefix := "ssl";
     Insecure := false; UseIamProvider := false |}.

Definition with_prefix (prefix : string) : S3 :=
  {| Host := "s3.example.com"; Bucket := "my-cert-bucket";
     AccessID := "Access ID"; SecretKey := "Secret Key"; Prefix := prefix;
     Insecure := false; UseIamProvider := false |}.

Definition pem : bytes := [Byte.x2d; Byte.x2d; Byte.x42; Byte.x45].

(** A store that holds the certificate of [example.com]. *)
Definition holding : mem.World :=
  fst (run mem.client
         (Store example_s3 Background "example.com/cert.pem" pem) mem.empty).

(** The same store, refusing its next call. *)
Definition refusing : mem.World :=
  {| mem.objects := mem.objects holding; mem.clock := mem.clock holding;
     mem.faults := [Some (mem.FaultResponse "AccessDenied" "Access Denied.")];
     mem.logged := [] |}.

(** ** Configuration ([s3.go], lines 51 to 176 and 299 to 308) *)

(** A non-nil [error] at configuration time: [errors.New(text)];
    [fmt.Errorf(format, err)] wrapping [err] with [%w]; the error of
    [url.Parse]; the [*strconv.NumError] of [strconv.ParseBool] for the
    input [num]; [d.Err(msg + err.Error())] of the dispenser, kept as the
    message and the error whose text it appends; the error of
    [minio.New]. *)
Inductive config_error : Type :=
| errors_New (text : string)
| fmt_Errorf (format : string) (err : config_error)
| url_Error (text : string)
| NumError (func num : string)
| dispenser_Err (msg : string) (err : config_error)
| minio_Error (text : string).

Module strconv.

Definition ParseBool (str : string) : bool * option config_error :=
  if String.eqb str "1" || String.eqb str "t" || String.eqb str "T"
     || String.eqb str "TRUE" || String.eqb str "true"
     || String.eqb str "True"
  then (true, None)
  else if String.eqb str "0" || String.eqb str "f" || String.eqb str "F"
          || String.eqb str "FALSE" || String.eqb str "false"
          || String.eqb str "False"
  then (false, None)
  else (false, Some (NumError "ParseBool" str)).

End strconv.

Module url.

(** [url.URL], of which the adapter reads the scheme. *)
Record URL : Type := mkURL {
  Scheme : string
}.

End url.

Module credentials.

Variant Credentials : Type :=
| NewIAM (endpoint : string)
| NewStaticV4 (id secret token : string).

End credentials.

(** [minio.Options], with the two fields the adapter sets. *)
Record Options : Type := mkOptions {
  Creds : credentials.Credentials;
  Secure : bool
}.

(** [os.Getenv]: the value of the variable, empty when it is not set. *)
Definition Getenv (env : gmap string string) (key : string) : string :=
  default "" (env !! key).

(** The pattern of [Provision] for a string field: a field left empty
    takes the environment variable. *)
Definition field (env : gmap string string) (v name : string) : string :=
  if String.eqb v "" then Getenv env name else v.

(** Assignments to the fields of [*S3]. *)
Definition set_Host (v : string) (s3 : S3) : S3 :=
  {| Host := v; Bucket := Bucket s3; AccessID := AccessID s3;
     SecretKey := SecretKey s3; Prefix := Prefix s3; Insecure := Insecure s3;
     UseIamProvider := UseIamProvider s3 |}.

Definition set_Bucket (v : string) (s3 : S3) : S3 :=
  {| Host := Host s3; Bucket := v; AccessID := AccessID s3;
     SecretKey := SecretKey s3; Prefix := Prefix s3; Insecure := Insecure s3;
     UseIamProvider := UseIamProvider s3 |}.

Definition set_AccessID (v : string) (s3 : S3) : S3 :=
  {| Host := Host s3; Bucket := Bucket s3; AccessID := v;
     SecretKey := SecretKey s3; Prefix := Prefix s3; Insecure := Insecure s3;
     UseIamProvider := UseIamProvider s3 |}.

Definition set_SecretKey (v : string) (s3 : S3) : S3 :=
  {| Host := Host s3; Bucket := Bucket s3; AccessID := AccessID s3;
     SecretKey := v; Prefix := Prefix s3; Insecure := Insecure s3;
     UseIamProvider := UseIamProvider s3 |}.

Definition set_Prefix (v : string) (s3 : S3) : S3 :=
  {| Host := Host s3; Bucket := Bucket s3; AccessID := AccessID s3;
     SecretKey := SecretKey s3; Prefix := v; Insecure := Insecure s3;
     UseIamProvider := UseIamProvider s3 |}.

Definition set_Insecure (v : bool) (s3 : S3) : S3 :=
  {| Host := Host s3; Bucket := Bucket s3; AccessID := AccessID s3;
     SecretKey := SecretKey s3; Prefix := Prefix s3; Insecure := v;
     UseIamProvider := UseIamProvider s3 |}.

Definition set_UseIamProvider (v : bool) (s3 : S3) : S3 :=
  {| Host := Host s3; Bucket := Bucket s3; AccessID := AccessID s3;
     SecretKey := SecretKey s3; Prefix := Prefix s3; Insecure := Insecure s3;
     UseIamProvider := v |}.

(** [&S3{}], the module [CaddyModule] registers. *)
Definition zero_S3 : S3 :=
  {| Host := ""; Bucket := ""; AccessID := ""; SecretKey := ""; Prefix := "";
     Insecure := false; UseIamProvider := false |}.

(** What [UnmarshalCaddyfile] sees of the dispenser: for every token at
    which [d.Next()] stops, the token [d.Val()] and the argument that
    [d.Args(&value)] loads, when it loads one. *)
Definition Dispenser : Type := list (string * option string).

(** What [Provision] leaves behind: the fields of [*S3], the lines given
    to [logger.Info], the client when one was made, and the error. *)
Record Provisioned (Client : Type) : Type := mkProvisioned {
  provisioned_s3 : S3;
  provisioned_info : list string;
  provisioned_client : option Client;
  provisioned_err : option config_error
}.

Arguments mkProvisioned {Client} _ _ _ _.
Arguments provisioned_s3 {Client} _.
Arguments provisioned_info {Client} _.
Arguments provisioned_client {Client} _.
Arguments provisioned_err {Client} _.

Section Configuration.

(** [url.Parse] and [minio.New] are not of this repository: the first
    gives the parsed URL or the text of its error, the second a client or
    the text of its error. *)
Variable url_Parse : string -> url.URL + string.
Context {Client : Type}.
Variable minio_New : string -> Options -> Client + string.

Definition validateHost (h : string) : option config_error :=
  match url_Parse h with
  | inr err =>
      Some (fmt_Errorf "invalid host: must be a hostname: %w" (url_Error err))
  | inl u =>
      if negb (String.eqb (url.Scheme u) "") then
        Some (errors_New "host must not contain a scheme prefix like https://")
      else None
  end.

(** [UnmarshalCaddyfile]: one turn of [for d.Next()] per entry; an entry
    without argument is skipped, a key outside the [switch] changes
    nothing, and an error ends the loop with the fields set so far. *)
Fixpoint UnmarshalCaddyfile (d : Dispenser) (s3 : S3)
  : S3 * option config_error :=
  match d with
  | [] => (s3, None)
  | (key, None) :: d' => UnmarshalCaddyfile d' s3
  | (key, Some value) :: d' =>
      if String.eqb key "host" then
        let s3 := set_Host value s3 in
        match validateHost (Host s3) with
        | Some err =>
            (s3, Some (dispenser_Err
                         "Invalid usage of host in s3-storage config: " err))
        | None => UnmarshalCaddyfile d' s3
        end
      else if String.eqb key "bucket" then
        UnmarshalCaddyfile d' (set_Bucket value s3)
      else if String.eqb key "access_id" then
        UnmarshalCaddyfile d' (set_AccessID value s3)
      else if String.eqb key "secret_key" then
        UnmarshalCaddyfile d' (set_SecretKey value s3)
      else if String.eqb key "prefix" then
        UnmarshalCaddyfile d' (set_Prefix value s3)
      else if String.eqb key "insecure" then
        let '(insecure, err) := strconv.ParseBool value in
        match err with
        | Some err =>
            (s3, Some (dispenser_Err
                         "Invalid usage of insecure in s3-storage config: "
                         err))
        | None => UnmarshalCaddyfile d' (set_Insecure insecure s3)
        end
      else if String.eqb key "use_iam_provider" then
        let '(boolValue, err) := strconv.ParseBool value in
        match err with
        | Some err =>
            (s3, Some (dispenser_Err
                         "Invalid usage of use_iam_provider in s3-storage config: "
                         err))
        | None => UnmarshalCaddyfile d' (set_UseIamProvider boolValue s3)
        end
      else UnmarshalCaddyfile d' s3
  end.

(** The blocks of [Provision] that load the environment, one per field.
    [if s3.Host == "" { s3.Host = os.Getenv("S3_HOST") }]: *)
Definition load_Host (env : gmap string string) (s3 : S3) : S3 :=
  if String.eqb (Host s3) "" then set_Host (Getenv env "S3_HOST") s3 else s3.

(** [if !s3.UseIamProvider { ... }]: a variable that is set is parsed, and
    a value that does not parse gives [false]. *)
Definition load_UseIamProvider (env : gmap string string) (s3 : S3) : S3 :=
  if negb (UseIamProvider s3) then
    let boolVal := Getenv env "S3_USE_IAM_PROVIDER" in
    if negb (String.eqb boolVal "") then
      let '(parsed, err) := strconv.ParseBool boolVal in
      let s3 := set_UseIamProvider parsed s3 in
      match err with
      | Some _ => set_UseIamProvider false s3
      | None => s3
      end
    else s3
  else s3.

(** [if s3.Bucket == "" { ...; if s3.Bucket == "" { return ... } }] *)
Definition load_Bucket (env : gmap string string) (s3 : S3)
  : S3 * option config_error :=
  if String.eqb (Bucket s3) "" then
    let s3 := set_Bucket (Getenv env "S3_BUCKET") s3 in
    if String.eqb (Bucket s3) "" then (s3, Some (errors_New "bucket is empty"))
    else (s3, None)
  else (s3, None).

Definition load_AccessID (env : gmap string string) (s3 : S3)
  : S3 * option config_error :=
  if String.eqb (AccessID s3) "" then
    let s3 := set_AccessID (Getenv env "S3_ACCESS_ID") s3 in
    if String.eqb (AccessID s3) "" && negb (UseIamProvider s3) then
      (s3, Some (errors_New
                   "access_id is empty and use_iam_provider is false"))
    else (s3, None)
  else (s3, None).

Definition load_SecretKey (env : gmap string string) (s3 : S3)
  : S3 * option config_error :=
  if String.eqb (SecretKey s3) "" then
    let s3 := set_SecretKey (Getenv env "S3_SECRET_KEY") s3 in
    if String.eqb (SecretKey s3) "" && negb (UseIamProvider s3) then
      (s3, Some (errors_New
                   "secret_key is empty and use_iam_provider is false"))
    else (s3, None)
  else (s3, None).

Definition load_Prefix (env : gmap string string) (s3 : S3) : S3 :=
  if String.eqb (Prefix s3) "" then set_Prefix (Getenv env "S3_PREFIX") s3
  else s3.

(** [if !s3.Insecure { ... }], as for [UseIamProvider]. *)
Definition load_Insecure (env : gmap string string) (s3 : S3) : S3 :=
  if negb (Insecure s3) then
    let insecure := Getenv env "S3_INSECURE" in
    if negb (String.eqb insecure "") then
      let '(parsed, err) := strconv.ParseBool insecure in
      let s3 := set_Insecure parsed s3 in
      match err with
      | Some _ => set_Insecure false s3
      | None => s3
      end
    else s3
  else s3.

(** The credentials and the line logged for them. *)
Definition choose_credentials (s3 : S3) : string * credentials.Credentials :=
  if UseIamProvider s3 then
    ("using iam aws provider for credentials", credentials.NewIAM "")
  else
    ("using secret_key and access_id for credentials",
     credentials.NewStaticV4 (AccessID s3) (SecretKey s3) "").

(** [Provision]: the blocks in the order of the source; the first error
    is returned with the fields as they are then. *)
Definition Provision (env : gmap string string) (s3 : S3)
  : Provisioned Client :=
  let failed s3 err :=
    {| provisioned_s3 := s3; provisioned_info := [];
       provisioned_client := None; provisioned_err := Some err |} in
  let s3 := load_Host env s3 in
  match validateHost (Host s3) with
  | Some err => failed s3 err
  | None =>
  let s3 := load_UseIamProvider env s3 in
  match load_Bucket env s3 with
  | (s3, Some err) => failed s3 err
  | (s3, None) =>
  match load_AccessID env s3 with
  | (s3, Some err) => failed s3 err
  | (s3, None) =>
  match load_SecretKey env s3 with
  | (s3, Some err) => failed s3 err
  | (s3, None) =>
  let s3 := load_Prefix env s3 in
  let s3 := load_Insecure env s3 in
  let secure := negb (Insecure s3) in
  let '(info, creds) := choose_credentials s3 in
  match minio_New (Host s3) {| Creds := creds; Secure := secure |} with
  | inr err =>
      {| provisioned_s3 := s3; provisioned_info := [info];
         provisioned_client := None;
         provisioned_err := Some (minio_Error err) |}
  | inl client =>
      {| provisioned_s3 := s3; provisioned_info := [info];
         provisioned_client := Some client; provisioned_err := None |}
  end
  end end end
  end.

(** The entry is one [UnmarshalCaddyfile] accepts: a [host] argument has
    to pass [validateHost], an [insecure] or [use_iam_provider] argument
    has to parse as a boolean. *)
Definition entry_valid (entry : string * option string) : bool :=
  match entry with
  | (key, Some value) =>
      if String.eqb key "host" then
        match validateHost value with None => true | Some _ => false end
      else if String.eqb key "insecure" || String.eqb key "use_iam_provider"
      then match snd (strconv.ParseBool value) with
           | None => true
           | Some _ => false
           end
      else true
  | (_, None) => true
  end.

(** [CertMagicStorage]: the adapter itself and a nil error. *)
Definition CertMagicStorage (s3 : S3) : S3 * option config_error :=
  (s3, None).

End Configuration.

(** [String]: the three [%s] verbs of the format filled in. *)
Definition String_ (s3 : S3) : string :=
  "S3 Storage Host: " ++ Host s3 ++ ", Bucket: " ++ Bucket s3
  ++ ", Prefix: " ++ Prefix s3.

(** The configuration with the environment filled in: a string field
    that is empty takes its variable, a flag that is off takes its variable
    when that parses as a boolean. *)
Definition resolve (env : gmap string string) (s3 : S3) : S3 :=
  let field (v : string) (name : string) :=
    if String.eqb v "" then Getenv env name else v in
  {| Host := field (Host s3) "S3_HOST";
     Bucket := field (Bucket s3) "S3_BUCKET";
     AccessID := field (AccessID s3) "S3_ACCESS_ID";
     SecretKey := field (SecretKey s3) "S3_SECRET_KEY";
     Prefix := field (Prefix s3) "S3_PREFIX";
     Insecure :=
       Insecure s3 || fst (strconv.ParseBool (Getenv env "S3_INSECURE"));
     UseIamProvider :=
       UseIamProvider s3
       || fst (strconv.ParseBool (Getenv env "S3_USE_IAM_PROVIDER")) |}.

(** The options [Provision] makes the client with. *)
Definition client_options (s3 : S3) : Options :=
  {| Creds :=
       if UseIamProvider s3 then credentials.NewIAM ""
       else credentials.NewStaticV4 (AccessID s3) (SecretKey s3) "";
     Secure := negb (Insecure s3) |}.

(** The arguments of the directive [key] in a dispenser, in order. *)
Definition directive_args (key : string) (d : Dispenser) : list string :=
  omap (fun entry : string * option string =>
          if String.eqb (fst entry) key then snd entry else None) d.

(** The last argument given to the directive [key], or [old]. *)
Definition last_arg (key : string) (d : Dispenser) (old : string) : string :=
  List.last (directive_args key d) old.

(** The last boolean given to the directive [key], or [old]. *)
Definition last_flag (key : string) (d : Dispenser) (old : bool) : bool :=
  List.last (map (fun v => fst (strconv.ParseBool v)) (directive_args key d))
    old.

(** Two properties of the buffer of [path.Clean]: its last byte is a
    slash; it has no two slashes in a row. *)
Fixpoint ends_in_slash (s : string) : bool :=
  match s with
  | "" => false
  | String c "" => Ascii.eqb c "/"
  | String _ s' => ends_in_slash s'
  end.

Fixpoint no_double_slash (s : string) : bool :=
  match s with
  | String a (String b _ as t) =>
      negb (Ascii.eqb a "/" && Ascii.eqb b "/") && no_double_slash t
  | _ => true
  end.

(** What [path.Clean] keeps true of its buffer between two elements: no two slashes in a row, no slash
    at its end unless it is the root, and the same for the part that
    [dotdot] protects. *)
Definition buffer_ok (rooted : bool) (out : string) (dotdot : nat) : Prop :=
  no_double_slash out = true
  /\ (ends_in_slash out = false \/ rooted = true /\ out = "/")
  /\ (dotdot <= String.length out)%nat
  /\ (ends_in_slash (substring 0 dotdot out) = false
      \/ rooted = true /\ substring 0 dotdot out = "/").

(** The buffer while an element is copied. *)
Definition copying_ok (rooted : bool) (o : string) (dotdot : nat) : Prop :=
  no_double_slash o = true
  /\ ends_in_slash o = false
  /\ (dotdot <= String.length o)%nat
  /\ (ends_in_slash (substring 0 dotdot o) = false
      \/ rooted = true /\ substring 0 dotdot o = "/").

(** Instances to run the configuration code with: a parser that splits
    off the scheme as [getScheme] of package [net/url] does, and a
    constructor that refuses an empty endpoint. *)
Module instances.

Definition is_letter (c : ascii) : bool :=
  let n := nat_of_ascii c in
  ((97 <=? n) && (n <=? 122) || (65 <=? n) && (n <=? 90))%nat.

Definition is_scheme_char (c : ascii) : bool :=
  let n := nat_of_ascii c in
  ((48 <=? n) && (n <=? 57))%nat
  || Ascii.eqb c "+" || Ascii.eqb c "-" || Ascii.eqb c ".".

Fixpoint getScheme (i : nat) (rawURL rest : string) : string + string :=
  match rest with
  | "" => inl ""
  | String c rest' =>
      if is_letter c then getScheme (S i) rawURL rest'
      else if is_scheme_char c then
        if (i =? 0)%nat then inl "" else getScheme (S i) rawURL rest'
      else if Ascii.eqb c ":" then
        if (i =? 0)%nat then inr "missing protocol scheme"
        else inl (substring 0 i rawURL)
      else inl ""
  end.

Definition parse (rawURL : string) : url.URL + string :=
  match getScheme 0 rawURL rawURL with
  | inl scheme => inl {| url.Scheme := scheme |}
  | inr err => inr ("parse " ++ rawURL ++ ": " ++ err)
  end.

Definition connect (endpoint : string) (opts : Options)
  : (string * Options) + string :=
  if String.eqb endpoint "" then inr "Endpoint:  does not follow ip address or domain name standards."
  else inl (endpoint, opts).

Definition caddyfile : Dispenser :=
  [("s3", None); ("{", None);
   ("host", Some "s3.example.com"); ("bucket", Some "my-cert-bucket");
   ("access_id", Some "Access ID"); ("secret_key", Some "Secret Key");
   ("prefix", Some "ssl"); ("insecure", Some "false"); ("}", None)].

Definition caddyfile_partial : Dispenser :=
  [("s3", None); ("{", None);
   ("host", Some "s3.example.com"); ("bucket", Some "first-bucket");
   ("access_id", Some "Access ID"); ("secret_key", Some "Secret Key");
   ("bucket", Some "my-cert-bucket"); ("}", None)].

Definition environment : gmap string string :=
  {[ "S3_BUCKET" := "env-bucket"; "S3_PREFIX" := "env-prefix";
     "S3_INSECURE" := "yes" ]}.

End instances.

(** * Facts *)

(** ** Strings *)

Section StringFacts.

Lemma append_cons (c : ascii) (a b : string) :
  String c a ++ b = String c (a ++ b).
Proof. reflexivity. Qed.

Lemma append_nil_l (s : string) : "" ++ s = s.
Proof. reflexivity. Qed.

Lemma append_nil_r (s : string) : s ++ "" = s.
Proof.
  induction s as [|c s IH]; [reflexivity | now rewrite append_cons, IH].
Qed.

Lemma append_assoc (a b c : string) : (a ++ b) ++ c = a ++ b ++ c.
Proof.
  induction a as [|x a IH]; [reflexivity | now rewrite !append_cons, IH].
Qed.

Lemma length_append (a b : string) :
  String.length (a ++ b) = (String.length a + String.length b)%nat.
Proof.
  induction a as [|x a IH]; [reflexivity |].
  rewrite append_cons. simpl. now rewrite IH.
Qed.

Lemma HasPrefix_append (p s : string) : strings.HasPrefix (p ++ s) p = true.
Proof.
  induction p as [|c p IH]; [reflexivity |].
  rewrite append_cons. simpl. now rewrite Ascii.eqb_refl, IH.
Qed.

Lemma drop_append (p s : string) : strings.drop (String.length p) (p ++ s) = s.
Proof.
  induction p as [|c p IH]; [reflexivity |]. rewrite append_cons. exact IH.
Qed.

Lemma CutPrefix_append (p s : string) : strings.CutPrefix (p ++ s) p = (s, true).
Proof.
  unfold strings.CutPrefix. now rewrite HasPrefix_append, drop_append.
Qed.

Lemma CutPrefix_empty (s : string) : strings.CutPrefix s "" = (s, true).
Proof. reflexivity. Qed.

End StringFacts.

(** ** [path.Clean] and [path.Join] on clean paths *)

Section PathFacts.

Import path.

Lemma clean_loop_cons (rooted : bool) (c : ascii) (rest out : string)
  (dotdot : nat) :
  clean_loop rooted (String c rest) out dotdot =
    if Ascii.eqb c "/" then clean_loop rooted rest out dotdot
    else if Ascii.eqb c "." && at_end rest then
      clean_loop rooted rest out dotdot
    else if Ascii.eqb c "."
            && match rest with
               | String c2 rest2 => Ascii.eqb c2 "." && at_end rest2
               | "" => false
               end
    then
      let '(out', dotdot') := dotdot_element rooted out dotdot in
      clean_loop rooted (strings.drop 1 rest) out' dotdot'
    else
      copy_element (fun p' o => clean_loop rooted p' o dotdot)
        (String c rest) (add_slash rooted out).
Proof.
  destruct rest as [|c2 rest2]; cbn [clean_loop strings.drop].
  - rewrite andb_false_r. reflexivity.
  - destruct (Ascii.eqb c "."), (Ascii.eqb c2 "."), (at_end rest2);
      reflexivity.
Qed.

Lemma copy_element_cons (continue : string -> string -> string) (d : ascii)
  (p o : string) :
  copy_element continue (String d p) o =
    if Ascii.eqb d "/" then continue p o
    else copy_element continue p (buf_append o d).
Proof. reflexivity. Qed.

Lemma copy_element_slash (continue : string -> string -> string)
  (e rest : string) :
  no_slash e = true ->
  forall o, copy_element continue (e ++ String "/" rest) o = continue rest (o ++ e).
Proof.
  induction e as [|c e IH]; intros He o.
  - simpl. now rewrite append_nil_r.
  - simpl in He. apply andb_true_iff in He as [Hc He].
    apply negb_true_iff in Hc.
    change (String c e ++ String "/" rest) with (String c (e ++ String "/" rest)).
    rewrite copy_element_cons, Hc, IH by exact He.
    unfold buf_append. now rewrite append_assoc.
Qed.

Lemma copy_element_end (continue : string -> string -> string) (e : string) :
  no_slash e = true ->
  forall o, copy_element continue e o = o ++ e.
Proof.
  induction e as [|c e IH]; intros He o.
  - simpl. now rewrite append_nil_r.
  - simpl in He. apply andb_true_iff in He as [Hc He].
    apply negb_true_iff in Hc.
    rewrite copy_element_cons, Hc, IH by exact He.
    unfold buf_append. now rewrite append_assoc.
Qed.

Lemma at_end_append (s : string) (rest : string) :
  at_end (s ++ String "/" rest) = at_end s.
Proof. destruct s; reflexivity. Qed.

Lemma is_element_inv (e : string) :
  is_element e = true ->
  e <> "" /\ no_slash e = true /\ e <> "." /\ e <> "..".
Proof.
  unfold is_element. rewrite !andb_true_iff, !negb_true_iff, !String.eqb_neq.
  tauto.
Qed.

(** One element, followed by the end of the input or by a slash. *)
Lemma clean_loop_element (rooted : bool) (e tail out : string) (dotdot : nat) :
  is_element e = true ->
  at_end tail = true ->
  clean_loop rooted (e ++ tail) out dotdot =
    match tail with
    | "" => add_slash rooted out ++ e
    | String _ rest => clean_loop rooted rest (add_slash rooted out ++ e) dotdot
    end.
Proof.
  intros He Htail.
  destruct (is_element_inv e He) as (Hne & Hns & Hdot & Hdotdot).
  destruct e as [|c e']; [congruence |].
  change (String c e' ++ tail) with (String c (e' ++ tail)).
  rewrite clean_loop_cons.
  pose proof Hns as Hns'. simpl in Hns'.
  apply andb_true_iff in Hns' as [Hc He'].
  apply negb_true_iff in Hc. rewrite Hc.
  assert (H1 : Ascii.eqb c "." && at_end (e' ++ tail) = false).
  { destruct (Ascii.eqb_spec c ".") as [->|]; [|reflexivity].
    destruct e' as [|c2 e'']; [congruence |].
    simpl in He'. apply andb_true_iff in He' as [Hc2 _].
    apply negb_true_iff in Hc2. simpl. exact Hc2. }
  rewrite H1.
  assert (H2 : Ascii.eqb c "."
               && match e' ++ tail with
                  | String c2 rest2 => Ascii.eqb c2 "." && at_end rest2
                  | "" => false
                  end = false).
  { destruct (Ascii.eqb_spec c ".") as [->|]; [|reflexivity].
    destruct e' as [|c2 e'']; [congruence |].
    simpl. destruct (Ascii.eqb_spec c2 ".") as [->|]; [|reflexivity].
    destruct e'' as [|c3 e3]; [congruence |].
    simpl in He'. apply andb_true_iff in He' as [Hc3 _].
    apply negb_true_iff in Hc3. simpl. exact Hc3. }
  rewrite H2.
  change (String c (e' ++ tail)) with (String c e' ++ tail).
  destruct tail as [|t rest].
  - rewrite append_nil_r. now apply copy_element_end.
  - simpl in Htail. apply Ascii.eqb_eq in Htail. subst t.
    now rewrite copy_element_slash.
Qed.

Lemma add_slash_nonempty (rooted : bool) (out e : string) :
  e <> "" ->
  add_slash rooted (add_slash rooted out ++ e)
  = (add_slash rooted out ++ e) ++ "/".
Proof.
  intros He. set (o := add_slash rooted out).
  assert (Ho : rooted = true -> o <> "").
  { intros ->. unfold o, add_slash, buf_append. simpl.
    destruct out as [|x [|y out]]; simpl; discriminate. }
  unfold add_slash at 1. rewrite length_append.
  destruct e as [|c e]; [congruence |]. simpl String.length.
  destruct rooted; simpl.
  - destruct o as [|x o]; [now exfalso; apply Ho |]. simpl.
    replace (String.length o + S (String.length e))%nat
      with (S (String.length o + String.length e)) by lia.
    reflexivity.
  - replace (String.length o + S (String.length e))%nat
      with (S (String.length o + String.length e)) by lia.
    reflexivity.
Qed.

Lemma forallb_elements (es : list string) :
  elements es = true -> es <> [] /\ forallb is_element es = true.
Proof.
  unfold elements. rewrite andb_true_iff, negb_true_iff, Nat.eqb_neq.
  intros [Hlen Hall]. split; [|exact Hall]. now destruct es.
Qed.

Lemma Join_nonempty (es : list string) :
  elements es = true -> strings.Join es "/" <> "".
Proof.
  intros H. apply forallb_elements in H as [Hne Hall].
  destruct es as [|e es]; [congruence |].
  simpl in Hall. apply andb_true_iff in Hall as [He _].
  apply is_element_inv in He as (He & _).
  destruct e; [congruence |]. destruct es; simpl; discriminate.
Qed.

Lemma Join_first (es : list string) :
  elements es = true ->
  exists c s, strings.Join es "/" = String c s /\ Ascii.eqb c "/" = false.
Proof.
  intros H. apply forallb_elements in H as [Hne Hall].
  destruct es as [|e es]; [congruence |].
  simpl in Hall. apply andb_true_iff in Hall as [He _].
  apply is_element_inv in He as (He & Hns & _).
  destruct e as [|c e]; [congruence |].
  simpl in Hns. apply andb_true_iff in Hns as [Hc _].
  apply negb_true_iff in Hc.
  destruct es; simpl; eauto.
Qed.

(** A clean relative path, followed by the end of the input or a slash. *)
Lemma clean_loop_elements (rooted : bool) (es : list string) :
  elements es = true ->
  forall (tail out : string) (dotdot : nat),
    at_end tail = true ->
    clean_loop rooted (strings.Join es "/" ++ tail) out dotdot =
      match tail with
      | "" => add_slash rooted out ++ strings.Join es "/"
      | String _ rest =>
          clean_loop rooted rest
            (add_slash rooted out ++ strings.Join es "/") dotdot
      end.
Proof.
  intros H. apply forallb_elements in H as [Hne Hall].
  induction es as [|e es IH]; [congruence |].
  intros tail out dotdot Htail.
  simpl in Hall. apply andb_true_iff in Hall as [He Hall].
  destruct es as [|e2 es].
  - simpl. now apply clean_loop_element.
  - change (strings.Join (e :: e2 :: es) "/")
      with (e ++ String "/" (strings.Join (e2 :: es) "/")).
    rewrite append_assoc.
    change (String "/" (strings.Join (e2 :: es) "/") ++ tail)
      with (String "/" (strings.Join (e2 :: es) "/" ++ tail)).
    rewrite clean_loop_element by (exact He || reflexivity).
    rewrite IH by (exact Hall || exact Htail || discriminate).
    apply is_element_inv in He as (He & _).
    rewrite add_slash_nonempty by exact He.
    rewrite !append_assoc. reflexivity.
Qed.

Lemma Clean_elements (es : list string) :
  elements es = true ->
  Clean (strings.Join es "/") = strings.Join es "/".
Proof.
  intros H. destruct (Join_first es H) as (c & s & Hj & Hc).
  pose proof (clean_loop_elements false es H "" "" 0 eq_refl) as Hloop.
  rewrite append_nil_r in Hloop. simpl in Hloop.
  unfold Clean. rewrite Hj in *. rewrite Hc, Hloop. reflexivity.
Qed.

End PathFacts.

Section JoinFacts.

Import path.

Lemma Join_pair (p k : string) :
  p <> "" -> k <> "" -> Join [p; k] = Clean (p ++ String "/" k).
Proof.
  intros Hp Hk. unfold Join. cbn [fold_left].
  destruct p as [|c p]; [congruence |].
  destruct k as [|d k]; [congruence |].
  cbn [String.length Nat.add Nat.eqb Nat.ltb Nat.leb orb negb String.eqb].
  rewrite append_nil_l. cbn [String.length Nat.ltb Nat.leb orb].
  unfold buf_append. now rewrite append_assoc.
Qed.

Lemma Join_no_prefix (k : string) : k <> "" -> Join [""; k] = Clean k.
Proof.
  intros Hk. unfold Join. cbn [fold_left].
  destruct k as [|d k]; [congruence |]. reflexivity.
Qed.

(** Whatever the prefix is, once it and the slash after it have been read
    the loop is in a state that does not depend on what follows. *)
Lemma clean_loop_prefix_aux (rooted : bool) (n : nat) :
  forall p : string,
    (String.length p < n)%nat ->
    (forall out dotdot, exists out' dotdot', forall rest,
        clean_loop rooted (p ++ String "/" rest) out dotdot
        = clean_loop rooted rest out' dotdot')
    /\ (forall o dotdot, exists out' dotdot', forall rest,
           copy_element (fun p' o' => clean_loop rooted p' o' dotdot)
             (p ++ String "/" rest) o
           = clean_loop rooted rest out' dotdot').
Proof.
  induction n as [|n IH]; intros p Hlen; [lia |].
  destruct p as [|c p].
  - split; intros out dotdot; exists out, dotdot; intros rest; reflexivity.
  - simpl in Hlen.
    destruct (IH p ltac:(lia)) as [IHloop IHcopy].
    assert (Hcopy : forall o dotdot, exists out' dotdot', forall rest,
               copy_element (fun p' o' => clean_loop rooted p' o' dotdot)
                 (String c p ++ String "/" rest) o
               = clean_loop rooted rest out' dotdot').
    { intros o dotdot. destruct (Ascii.eqb c "/") eqn:Hc.
      - destruct (IHloop o dotdot) as (out' & dotdot' & H).
        exists out', dotdot'. intros rest.
        rewrite append_cons, copy_element_cons, Hc. apply H.
      - destruct (IHcopy (buf_append o c) dotdot) as (out' & dotdot' & H).
        exists out', dotdot'. intros rest.
        rewrite append_cons, copy_element_cons, Hc. apply H. }
    split; [|exact Hcopy].
    intros out dotdot.
    destruct (Ascii.eqb c "/") eqn:Hc.
    { destruct (IHloop out dotdot) as (out' & dotdot' & H).
      exists out', dotdot'. intros rest.
      rewrite append_cons, clean_loop_cons, Hc. apply H. }
    destruct (Ascii.eqb c "." && at_end p) eqn:Hdot.
    { destruct (IHloop out dotdot) as (out' & dotdot' & H).
      exists out', dotdot'. intros rest.
      rewrite append_cons, clean_loop_cons, Hc, at_end_append, Hdot. apply H. }
    destruct (Ascii.eqb c "."
              && match p with
                 | String c2 rest2 => Ascii.eqb c2 "." && at_end rest2
                 | "" => false
                 end) eqn:Hdotdot.
    { destruct p as [|c2 p2]; [now rewrite andb_false_r in Hdotdot |].
      simpl in Hlen.
      destruct (IH p2 ltac:(lia)) as [IHloop2 _].
      destruct (dotdot_element rooted out dotdot) as [o2 d2] eqn:Hstep.
      destruct (IHloop2 o2 d2) as (out' & dotdot' & H).
      exists out', dotdot'. intros rest.
      rewrite append_cons, clean_loop_cons, Hc, at_end_append, Hdot.
      rewrite append_cons, at_end_append, Hdotdot, Hstep.
      cbn [strings.drop]. apply H. }
    destruct (Hcopy (add_slash rooted out) dotdot) as (out' & dotdot' & H).
    exists out', dotdot'. intros rest.
    rewrite append_cons, clean_loop_cons, Hc, at_end_append, Hdot.
    assert (Hdd : Ascii.eqb c "."
                  && match p ++ String "/" rest with
                     | String c2 rest2 => Ascii.eqb c2 "." && at_end rest2
                     | "" => false
                     end = false).
    { destruct p as [|c2 p2].
      - rewrite append_nil_l. cbn [at_end].
        rewrite andb_true_r in Hdot. rewrite Hdot. reflexivity.
      - rewrite append_cons, at_end_append. exact Hdotdot. }
    rewrite Hdd, <- append_cons. apply H.
Qed.

Lemma clean_loop_prefix (rooted : bool) (p out : string) (dotdot : nat) :
  exists out' dotdot', forall rest,
    clean_loop rooted (p ++ String "/" rest) out dotdot
    = clean_loop rooted rest out' dotdot'.
Proof.
  destruct (clean_loop_prefix_aux rooted (S (String.length p)) p ltac:(lia))
    as [H _].
  apply H.
Qed.

(** For every first element of [Join] there is a fixed string that [Join]
    puts in front of every clean relative path. *)
Lemma Join_elements_prefix (p : string) :
  exists physical, forall es,
    elements es = true ->
    Join [p; strings.Join es "/"] = physical ++ strings.Join es "/".
Proof.
  destruct p as [|c p].
  - exists "". intros es Hes.
    rewrite Join_no_prefix by now apply Join_nonempty.
    now rewrite Clean_elements.
  - assert (H : exists rooted out dotdot, forall k,
               Clean (String c p ++ String "/" k)
               = let o := clean_loop rooted k out dotdot in
                 if (String.length o =? 0)%nat then "." else o).
    { destruct (Ascii.eqb c "/") eqn:Hc.
      - destruct (clean_loop_prefix true p "/" 1) as (out & dotdot & H).
        exists true, out, dotdot. intros k.
        rewrite append_cons. unfold Clean. rewrite Hc, H. reflexivity.
      - destruct (clean_loop_prefix false (String c p) "" 0)
          as (out & dotdot & H).
        exists false, out, dotdot. intros k.
        rewrite append_cons. unfold Clean. rewrite Hc, <- append_cons, H.
        reflexivity. }
    destruct H as (rooted & out & dotdot & H).
    exists (add_slash rooted out). intros es Hes.
    rewrite Join_pair by (discriminate || now apply Join_nonempty).
    rewrite H. cbv zeta.
    pose proof (clean_loop_elements rooted es Hes "" out dotdot eq_refl) as Hl.
    rewrite append_nil_r in Hl. rewrite Hl.
    destruct (Join_first es Hes) as (d & s & Hj & _).
    rewrite length_append, Hj. simpl String.length.
    replace (String.length (add_slash rooted out) + S (String.length s))%nat
      with (S (String.length (add_slash rooted out) + String.length s))
      by lia.
    reflexivity.
Qed.

(** A clean relative prefix is followed by one slash. *)
Lemma Join_elements (ps es : list string) :
  elements ps = true -> elements es = true ->
  Join [strings.Join ps "/"; strings.Join es "/"]
  = strings.Join ps "/" ++ "/" ++ strings.Join es "/".
Proof.
  intros Hps Hes.
  rewrite Join_pair by now apply Join_nonempty.
  destruct (Join_first ps Hps) as (c & s & Hj & Hc).
  pose proof (clean_loop_elements false ps Hps
                (String "/" (strings.Join es "/")) "" 0 eq_refl) as Hl.
  pose proof (clean_loop_elements false es Hes "" (strings.Join ps "/") 0
                eq_refl) as Hk.
  rewrite append_nil_r in Hk. cbv beta iota in Hl.
  change (add_slash false "") with "" in Hl. rewrite append_nil_l in Hl.
  unfold Clean. rewrite Hj in *. rewrite append_cons, Hc, <- append_cons.
  rewrite Hl, Hk.
  assert (Hadd : add_slash false (String c s) = String c s ++ "/")
    by reflexivity.
  rewrite Hadd, append_assoc.
  rewrite append_cons. reflexivity.
Qed.

(** So is a clean relative prefix that already ends in a slash. *)
Lemma Join_elements_slash (ps es : list string) :
  elements ps = true -> elements es = true ->
  Join [strings.Join ps "/" ++ "/"; strings.Join es "/"]
  = (strings.Join ps "/" ++ "/") ++ strings.Join es "/".
Proof.
  intros Hps Hes.
  destruct (Join_first ps Hps) as (c & s & Hj & Hc).
  rewrite Join_pair; [| rewrite Hj; discriminate | now apply Join_nonempty].
  pose proof (clean_loop_elements false ps Hps
                (String "/" (String "/" (strings.Join es "/"))) "" 0 eq_refl)
    as Hl.
  pose proof (clean_loop_elements false es Hes "" (strings.Join ps "/") 0
                eq_refl) as Hk.
  rewrite append_nil_r in Hk. cbv beta iota in Hl.
  change (add_slash false "") with "" in Hl. rewrite append_nil_l in Hl.
  rewrite clean_loop_cons in Hl. cbn [Ascii.eqb Bool.eqb] in Hl.
  rewrite append_assoc. change ("/" ++ String "/" (strings.Join es "/"))
    with (String "/" (String "/" (strings.Join es "/"))).
  unfold Clean. rewrite Hj in *. rewrite append_cons, Hc, <- append_cons.
  rewrite Hl, Hk.
  assert (Hadd : add_slash false (String c s) = String c s ++ "/")
    by reflexivity.
  rewrite Hadd, !append_assoc.
  rewrite append_cons. reflexivity.
Qed.

End JoinFacts.

(** * The packages on the examples of their documentation *)

Section Examples.

Example Clean_documented :
  map path.Clean
    ["a/c"; "a//c"; "a/c/."; "a/c/b/.."; "/../a/c"; "/../a/b/../././/c"; ""]
  = ["a/c"; "a/c"; "a/c"; "a/c"; "/a/c"; "/a/c"; "."].
Proof. reflexivity. Qed.

Example Clean_dotdot :
  map path.Clean
    ["abc/def/../../.."; "../../abc"; "abc/../../././../def"; "/abc/../../x";
     "..a/.b/..."; "/"; "//"]
  = [".."; "../../abc"; "../../def"; "/x"; "..a/.b/..."; "/"; "/"].
Proof. reflexivity. Qed.

Example Join_documented :
  map path.Join
    [["a"; "b"; "c"]; ["a"; "b/c"]; ["a/b"; "c"]; ["a/b"; "../../../xyz"];
     [""; ""]; ["a"; ""]; [""; "a"]]
  = ["a/b/c"; "a/b/c"; "a/b/c"; "../xyz"; ""; "a"; "a"].
Proof. reflexivity. Qed.

Example CutPrefix_documented :
  strings.CutPrefix "Gopher" "Go" = ("pher", true)
  /\ strings.CutPrefix "Gopher" "ph" = ("Gopher", false).
Proof. split; reflexivity. Qed.

Example HasSuffix_documented :
  strings.HasSuffix "Amigo" "go" = true
  /\ strings.HasSuffix "Amigo" "O" = false
  /\ strings.HasSuffix "Amigo" "Ami" = false
  /\ strings.HasSuffix "Amigo" "" = true.
Proof. repeat split; reflexivity. Qed.

(** The example of the design note: prefix [ssl], key
    [example.com/cert.pem]. *)
Example KeyPrefix_ssl :
  KeyPrefix example_s3 "example.com/cert.pem" = "ssl/example.com/cert.pem".
Proof. reflexivity. Qed.

Example holding_objects :
  mem.content
  <$> mem.objects holding !! ("my-cert-bucket", "ssl/example.com/cert.pem")
  = Some pem.
Proof. reflexivity. Qed.

End Examples.

(** ** Programs and their runs *)

Section RunFacts.

Context {W : Type}.
Variable client : forall c : call, W -> W * response c.

Lemma run_bind {A B : Type} (p : Prog A) (f : A -> Prog B) (w : W) :
  run client (bind p f) w
  = run client (f (snd (run client p w))) (fst (run client p w)).
Proof.
  revert w. induction p as [a | c k IH]; intros w; simpl; [reflexivity |].
  destruct (client c w) as [w' r]. apply IH.
Qed.

Lemma trace_bind {A B : Type} (p : Prog A) (f : A -> Prog B) (w : W) :
  trace client (bind p f) w
  = (trace client p w
     ++ trace client (f (snd (run client p w))) (fst (run client p w)))%list.
Proof.
  revert w. induction p as [a | c k IH]; intros w; simpl; [reflexivity |].
  destruct (client c w) as [w' r]. simpl. now rewrite IH.
Qed.

Lemma run_perform (c : call) (w : W) : run client (perform c) w = client c w.
Proof. simpl. now destruct (client c w). Qed.

Lemma trace_perform (c : call) (w : W) : trace client (perform c) w = [c].
Proof. simpl. now destruct (client c w). Qed.

Lemma calls_only_bind (P : call -> Prop) {A B : Type} (p : Prog A)
  (f : A -> Prog B) :
  calls_only P p -> (forall a, calls_only P (f a)) -> calls_only P (bind p f).
Proof.
  intros Hp Hf. induction Hp as [a | c k Hc Hk IH]; simpl; [apply Hf |].
  constructor; assumption.
Qed.

Lemma calls_only_perform (P : call -> Prop) (c : call) :
  P c -> calls_only P (perform c).
Proof. intros Hc. constructor; [exact Hc | intros r; constructor]. Qed.

(** What the calls of a program preserve, the program preserves. *)
Lemma run_calls_only {O : Type} (observe : W -> O) (P : call -> Prop) :
  (forall c w, P c -> observe (fst (client c w)) = observe w) ->
  forall (A : Type) (p : Prog A),
    calls_only P p ->
    forall w, observe (fst (run client p w)) = observe w.
Proof.
  intros Hcall A p Hp. induction Hp as [a | c k Hc Hk IH]; intros w; simpl.
  - reflexivity.
  - specialize (Hcall c w Hc). destruct (client c w) as [w' r].
    simpl in Hcall. now rewrite IH.
Qed.

Lemma trace_calls_only (P : call -> Prop) {A : Type} (p : Prog A) :
  calls_only P p -> forall w, Forall P (trace client p w).
Proof.
  intros Hp. induction Hp as [a | c k Hc Hk IH]; intros w; simpl.
  - constructor.
  - destruct (client c w) as [w' r]. constructor; [exact Hc | apply IH].
Qed.

End RunFacts.

(** ** The adapter's reads make no mutating call *)

Section ReadOnly.

Ltac reads_call :=
  apply calls_only_bind; [apply calls_only_perform; reflexivity |].

Lemma Exists_reads (s3 : S3) (ctx : Context) (key : string) :
  calls_only reads (Exists s3 ctx key).
Proof.
  unfold Exists. reads_call. intros [object err].
  reads_call. intros _. constructor.
Qed.

Lemma Load_reads (s3 : S3) (ctx : Context) (key : string) :
  calls_only reads (Load s3 ctx key).
Proof.
  unfold Load. apply calls_only_bind; [apply Exists_reads |].
  intros [|]; simpl negb; cbv iota; [| constructor].
  reads_call. intros _. reads_call. intros [object | err]; [| constructor].
  reads_call. intros result. reads_call. intros _. constructor.
Qed.

Lemma List_reads (s3 : S3) (ctx : Context) (prefix : string) (recursive : bool) :
  calls_only reads (List s3 ctx prefix recursive).
Proof. unfold List. reads_call. intros objects. constructor. Qed.

Lemma Stat_reads (s3 : S3) (ctx : Context) (key : string) :
  calls_only reads (Stat s3 ctx key).
Proof.
  unfold Stat. reads_call. intros [object [e|]];
    reads_call; intros _; constructor.
Qed.

End ReadOnly.

(** ** The in-memory store *)

Section MemFacts.

Lemma next_fault_objects (w : mem.World) :
  mem.objects (snd (mem.next_fault w)) = mem.objects w.
Proof. unfold mem.next_fault. now destruct (mem.faults w). Qed.

(** Calls other than [PutObject] and [RemoveObject] keep every object. *)
Lemma mem_client_reads (c : call) (w : mem.World) :
  reads c -> mem.objects (fst (mem.client c w)) = mem.objects w.
Proof.
  intros Hc. pose proof (next_fault_objects w) as Hf.
  destruct c; try discriminate Hc; simpl;
    try (destruct (mem.next_fault w) as [[e|] w']; simpl in *; try exact Hf);
    try reflexivity.
  - destruct (mem.objects w' !! _); exact Hf.
  - destruct (mem.objects w' !! _); exact Hf.
Qed.

Lemma fault_error_generic (f : option mem.fault) :
  generic (option_map mem.fault_error f).
Proof. unfold generic. destruct f as [[? ?|?]|]; discriminate. Qed.

Lemma next_fault_generic (w : mem.World) : generic (fst (mem.next_fault w)).
Proof.
  unfold mem.next_fault. destruct (mem.faults w); simpl.
  - discriminate.
  - apply fault_error_generic.
Qed.

Lemma mem_client_fetch_errors_generic : fetch_errors_generic mem.client.
Proof.
  split.
  - intros ctx b n o w e. simpl.
    pose proof (next_fault_generic w) as Hg.
    destruct (mem.next_fault w) as [[e'|] w']; simpl in *; [| discriminate].
    intros [= <-] ->. now apply Hg.
  - intros object w. simpl.
    pose proof (next_fault_generic w) as Hg.
    destruct (mem.next_fault w) as [[e'|] w']; simpl in *; [exact Hg |].
    destruct (mem.objects w' !! _); simpl; discriminate.
Qed.

Lemma reliable_next (n : nat) (w : mem.World) :
  mem.reliable (S n) w ->
  fst (mem.next_fault w) = None /\ mem.reliable n (snd (mem.next_fault w)).
Proof.
  unfold mem.reliable, mem.next_fault.
  destruct (mem.faults w) as [|f fs] eqn:Hf; simpl.
  - intros _. split; [reflexivity |]. rewrite Hf. now destruct n.
  - intros H. inversion H as [|? ? Hhd Htl]; subst. split; [reflexivity | exact Htl].
Qed.

Lemma reliable_log (n : nat) (msg : message) (w : mem.World) :
  mem.reliable n w -> mem.reliable n (mem.log msg w).
Proof. intros H. exact H. Qed.

(** A stored object is loaded when the store fails none of the three
    calls [Load] makes. *)
Lemma mem_Load_present (s3 : S3) (ctx : Context) (key : string)
  (w : mem.World) (o : mem.StoredObject) :
  mem.reliable 3 w ->
  mem.objects w !! (Bucket s3, KeyPrefix s3 key) = Some o ->
  snd (run mem.client (Load s3 ctx key) w) = (mem.content o, None).
Proof.
  unfold Load, Exists. generalize (KeyPrefix s3 key) as pk.
  intros pk Hrel Ho. rewrite !run_bind, !run_perform.
  simpl (mem.client (StatObject _ _ _ _) _).
  destruct (reliable_next 2 w Hrel) as [Hf1 Hrel1].
  pose proof (next_fault_objects w) as Ho1.
  destruct (mem.next_fault w) as [f1 w1]. simpl in Hf1, Hrel1, Ho1. subst f1.
  rewrite Ho1, Ho. simpl.
  match goal with |- context [mem.next_fault ?x] => set (w2 := x) end.
  assert (Hrel1' : mem.reliable 2 w2) by exact Hrel1.
  assert (Ho2 : mem.objects w2 = mem.objects w) by exact Ho1.
  destruct (reliable_next 1 w2 Hrel1') as [Hf2 Hrel2].
  pose proof (next_fault_objects w2) as Ho3.
  destruct (mem.next_fault w2) as [f2 w3]. cbn [fst snd] in Hf2, Hrel2, Ho3.
  subst f2. simpl.
  destruct (reliable_next 0 w3 Hrel2) as [Hf3 _].
  pose proof (next_fault_objects w3) as Ho4.
  destruct (mem.next_fault w3) as [f3 w4]. cbn [fst snd] in Hf3, Ho4. subst f3.
  rewrite Ho4, Ho3, Ho2, Ho. reflexivity.
Qed.

End MemFacts.

(** ** What each operation asks of the client *)

Section Operations.

Context {W : Type}.
Variable client : forall c : call, W -> W * response c.

Lemma run_Store (s3 : S3) (ctx : Context) (key : string) (value : bytes)
  (w : W) :
  let key' := KeyPrefix s3 key in
  let length := Z.of_nat (List.length value) in
  let w1 :=
    fst (client (LogDebug (Sprintf "Store: %s, %d bytes"
                             [ArgS key'; ArgD length])) w) in
  let put :=
    client (PutObject ctx (Bucket s3) key' value length
              minio.mkPutObjectOptions) w1 in
  run client (Store s3 ctx key value) w = (fst put, snd (snd put)).
Proof.
  unfold Store. generalize (KeyPrefix s3 key) as pk. intros pk. simpl.
  destruct (client (LogDebug _) w) as [w1 []]. simpl.
  destruct (client (PutObject _ _ _ _ _ _) w1) as [w2 [info err]].
  reflexivity.
Qed.

Lemma run_Delete (s3 : S3) (ctx : Context) (key : string) (w : W) :
  let key' := KeyPrefix s3 key in
  let w1 := fst (client (LogDebug (Sprintf "Delete key: %s" [ArgS key'])) w) in
  run client (Delete s3 ctx key) w
  = client (RemoveObject ctx (Bucket s3) key' minio.mkRemoveObjectOptions) w1.
Proof.
  unfold Delete. generalize (KeyPrefix s3 key) as pk. intros pk. simpl.
  destruct (client (LogDebug _) w) as [w1 []]. simpl.
  destruct (client (RemoveObject _ _ _ _) w1) as [w2 err]. reflexivity.
Qed.

Lemma run_Exists (s3 : S3) (ctx : Context) (key : string) (w : W) :
  let key' := KeyPrefix s3 key in
  let stat :=
    client (StatObject ctx (Bucket s3) key' minio.mkStatObjectOptions) w in
  let exists_ := match snd (snd stat) with None => true | Some _ => false end in
  run client (Exists s3 ctx key) w
  = (fst (client (LogDebug (Sprintf "Check exists: %s, %t"
                              [ArgS key'; ArgT exists_])) (fst stat)),
     exists_).
Proof.
  unfold Exists. generalize (KeyPrefix s3 key) as pk. intros pk. simpl.
  destruct (client (StatObject _ _ _ _) w) as [w1 [info err]]. simpl.
  destruct (client (LogDebug _) w1) as [w2 []]. reflexivity.
Qed.

Lemma run_Stat (s3 : S3) (ctx : Context) (key : string) (w : W) :
  let key' := KeyPrefix s3 key in
  let stat :=
    client (StatObject ctx (Bucket s3) key' minio.mkStatObjectOptions) w in
  let object := fst (snd stat) in
  snd (run client (Stat s3 ctx key) w)
  = match snd (snd stat) with
    | Some _ => (certmagic.zero, None)
    | None =>
        ({| certmagic.Key := minio.Key object;
            certmagic.Modified := minio.LastModified object;
            certmagic.Size := minio.Size object;
            certmagic.IsTerminal := strings.HasSuffix (minio.Key object) "/" |},
         None)
    end.
Proof.
  unfold Stat. generalize (KeyPrefix s3 key) as pk. intros pk. simpl.
  destruct (client (StatObject _ _ _ _) w) as [w1 [info [e|]]]; simpl.
  - destruct (client (LogError _) w1) as [w2 []]. reflexivity.
  - destruct (client (LogDebug _) w1) as [w2 []]. reflexivity.
Qed.

Lemma run_List (s3 : S3) (ctx : Context) (prefix : string) (recursive : bool)
  (w : W) :
  let objects :=
    client (ListObjects ctx (Bucket s3)
              {| minio.Prefix := KeyPrefix s3 prefix;
                 minio.Recursive := recursive |}) w in
  run client (List s3 ctx prefix recursive) w
  = (fst objects,
     ((repeat "" (minio.chan_len (snd objects))
       ++ map (fun object => CutKeyPrefix s3 (minio.Key object))
            (minio.chan_items (snd objects)))%list,
      None)).
Proof.
  unfold List. generalize (KeyPrefix s3 prefix) as pk. intros pk. simpl.
  destruct (client (ListObjects _ _ _) w) as [w1 [n items]]. simpl.
  do 2 f_equal. f_equal. generalize (repeat "" n) as keys.
  induction items as [|object items IH]; intros keys; simpl.
  - now rewrite app_nil_r.
  - rewrite IH, <- app_assoc. reflexivity.
Qed.

Lemma run_Load (s3 : S3) (ctx : Context) (key : string) (w : W) :
  let key' := KeyPrefix s3 key in
  let pre := run client (Exists s3 ctx key) w in
  let w1 := fst (client (LogDebug (Sprintf "Load key: %s" [ArgS key'])) (fst pre)) in
  let fetched :=
    client (GetObject ctx (Bucket s3) key' minio.mkGetObjectOptions) w1 in
  run client (Load s3 ctx key) w
  = if snd pre then
      match snd fetched with
      | inr err => (fst fetched, ([], Some err))
      | inl object =>
          let read := client (ReadAll object) (fst fetched) in
          (fst (client (Close object) (fst read)), snd read)
      end
    else (fst pre, ([], Some ErrNotExist)).
Proof.
  unfold Load. cbv zeta. rewrite run_bind.
  generalize (KeyPrefix s3 key) as pk. intros pk.
  destruct (run client (Exists s3 ctx key) w) as [w0 [|]]; cbn [fst snd negb];
    [| reflexivity].
  simpl. destruct (client (LogDebug _) w0) as [w1 []]. simpl.
  destruct (client (GetObject _ _ _ _) w1) as [w2 [object | err]]; simpl;
    [| reflexivity].
  destruct (client (ReadAll object) w2) as [w3 result]. simpl.
  destruct (client (Close object) w3) as [w4 closed]. reflexivity.
Qed.

(** The objects named in the calls of each operation. *)
Lemma names_Store (s3 : S3) (ctx : Context) (key : string) (value : bytes)
  (w : W) :
  object_names (trace client (Store s3 ctx key value) w)
  = [(Bucket s3, KeyPrefix s3 key)].
Proof.
  unfold Store. generalize (KeyPrefix s3 key) as pk. intros pk. simpl.
  destruct (client (LogDebug _) w) as [w1 []]. simpl.
  destruct (client (PutObject _ _ _ _ _ _) w1) as [w2 [info err]].
  reflexivity.
Qed.

Lemma names_Delete (s3 : S3) (ctx : Context) (key : string) (w : W) :
  object_names (trace client (Delete s3 ctx key) w)
  = [(Bucket s3, KeyPrefix s3 key)].
Proof.
  unfold Delete. generalize (KeyPrefix s3 key) as pk. intros pk. simpl.
  destruct (client (LogDebug _) w) as [w1 []]. simpl.
  destruct (client (RemoveObject _ _ _ _) w1) as [w2 err]. reflexivity.
Qed.

Lemma names_Exists (s3 : S3) (ctx : Context) (key : string) (w : W) :
  object_names (trace client (Exists s3 ctx key) w)
  = [(Bucket s3, KeyPrefix s3 key)].
Proof.
  unfold Exists. generalize (KeyPrefix s3 key) as pk. intros pk. simpl.
  destruct (client (StatObject _ _ _ _) w) as [w1 [info err]]. simpl.
  destruct (client (LogDebug _) w1) as [w2 []]. reflexivity.
Qed.

Lemma names_Stat (s3 : S3) (ctx : Context) (key : string) (w : W) :
  object_names (trace client (Stat s3 ctx key) w)
  = [(Bucket s3, KeyPrefix s3 key)].
Proof.
  unfold Stat. generalize (KeyPrefix s3 key) as pk. intros pk. simpl.
  destruct (client (StatObject _ _ _ _) w) as [w1 [info [e|]]]; simpl.
  - destruct (client (LogError _) w1) as [w2 []]. reflexivity.
  - destruct (client (LogDebug _) w1) as [w2 []]. reflexivity.
Qed.

Lemma names_Load (s3 : S3) (ctx : Context) (key : string) (w : W) :
  object_names (trace client (Load s3 ctx key) w)
  = if snd (run client (Exists s3 ctx key) w)
    then [(Bucket s3, KeyPrefix s3 key); (Bucket s3, KeyPrefix s3 key)]
    else [(Bucket s3, KeyPrefix s3 key)].
Proof.
  unfold Load. rewrite trace_bind. unfold object_names.
  rewrite omap_app. fold (object_names (trace client (Exists s3 ctx key) w)).
  rewrite names_Exists.
  generalize (KeyPrefix s3 key) as pk. intros pk.
  destruct (run client (Exists s3 ctx key) w) as [w0 [|]]; cbn [fst snd negb];
    [| reflexivity].
  simpl. destruct (client (LogDebug _) w0) as [w1 []]. simpl.
  destruct (client (GetObject _ _ _ _) w1) as [w2 [object | err]]; simpl;
    [| reflexivity].
  destruct (client (ReadAll object) w2) as [w3 result]. simpl.
  destruct (client (Close object) w3) as [w4 closed]. reflexivity.
Qed.

End Operations.

Section MemWrites.

Lemma mem_Store_objects (s3 : S3) (ctx : Context) (key : string)
  (value : bytes) (w : mem.World) :
  let after := run mem.client (Store s3 ctx key value) w in
  match snd after with
  | None =>
      exists o, mem.content o = value
        /\ mem.objects (fst after)
           = <[(Bucket s3, KeyPrefix s3 key) := o]> (mem.objects w)
  | Some _ => mem.objects (fst after) = mem.objects w
  end.
Proof.
  unfold Store. generalize (KeyPrefix s3 key) as pk. intros pk.
  cbv zeta. rewrite !run_bind, !run_perform.
  simpl (mem.client (LogDebug _) _). cbn [fst snd].
  simpl (mem.client (PutObject _ _ _ _ _ _) _).
  match goal with |- context [mem.next_fault ?x] => set (w1 := x) end.
  pose proof (next_fault_objects w1) as Ho.
  destruct (mem.next_fault w1) as [[e|] w2]; cbn [fst snd] in *.
  - simpl. exact Ho.
  - rewrite Z.eqb_refl. simpl.
    exists {| mem.content := value; mem.modified := mem.clock w2 |}.
    split; [| rewrite Ho]; reflexivity.
Qed.

Lemma mem_Delete_objects (s3 : S3) (ctx : Context) (key : string)
  (w : mem.World) :
  let after := run mem.client (Delete s3 ctx key) w in
  mem.objects (fst after) = mem.objects w
  \/ mem.objects (fst after)
     = delete (Bucket s3, KeyPrefix s3 key) (mem.objects w).
Proof.
  unfold Delete. generalize (KeyPrefix s3 key) as pk. intros pk.
  cbv zeta. rewrite !run_bind, !run_perform.
  simpl (mem.client (LogDebug _) _). cbn [fst snd].
  simpl (mem.client (RemoveObject _ _ _ _) _).
  match goal with |- context [mem.next_fault ?x] => set (w1 := x) end.
  pose proof (next_fault_objects w1) as Ho.
  destruct (mem.next_fault w1) as [[e|] w2]; cbn [fst snd] in *.
  - left. exact Ho.
  - right. simpl. now rewrite Ho.
Qed.

(** An operation that does not write to an object name keeps what the
    store holds under that name. *)
Lemma mem_operate_keeps (s3 : S3) (objectName : string) (op : operation)
  (w : mem.World) :
  writes_to s3 objectName op = false ->
  mem.objects (fst (run mem.client (operate s3 op) w)) !! (Bucket s3, objectName)
  = mem.objects w !! (Bucket s3, objectName).
Proof.
  intros Hop.
  assert (Hread : forall (A : Type) (p : Prog A),
             calls_only reads p ->
             mem.objects (fst (run mem.client p w)) = mem.objects w).
  { intros A p Hp.
    exact (run_calls_only mem.client mem.objects reads
             (fun c w Hc => mem_client_reads c w Hc) A p Hp w). }
  destruct op as [ctx key | ctx key | ctx key value | ctx key | ctx key
                 | ctx key | ctx prefix recursive | ctx key];
    cbn [operate]; rewrite run_bind; cbn [run fst].
  - reflexivity.
  - reflexivity.
  - simpl in Hop. apply String.eqb_neq in Hop.
    pose proof (mem_Store_objects s3 ctx key value w) as H. cbv zeta in H.
    destruct (snd (run mem.client (Store s3 ctx key value) w)).
    + now rewrite H.
    + destruct H as (o & _ & ->). apply lookup_insert_ne. congruence.
  - now rewrite Hread by apply Load_reads.
  - simpl in Hop. apply String.eqb_neq in Hop.
    destruct (mem_Delete_objects s3 ctx key w) as [-> | ->]; [reflexivity |].
    apply lookup_delete_ne. congruence.
  - now rewrite Hread by apply Exists_reads.
  - now rewrite Hread by apply List_reads.
  - now rewrite Hread by apply Stat_reads.
Qed.

Lemma mem_operate_all_keeps (s3 : S3) (objectName : string)
  (ops : list operation) :
  forallb (fun op => negb (writes_to s3 objectName op)) ops = true ->
  forall w,
    mem.objects (fst (run mem.client (operate_all s3 ops) w))
      !! (Bucket s3, objectName)
    = mem.objects w !! (Bucket s3, objectName).
Proof.
  induction ops as [|op ops IH]; intros Hops w; [reflexivity |].
  simpl in Hops. apply andb_true_iff in Hops as [Hop Hops].
  apply negb_true_iff in Hop.
  cbn [operate_all]. rewrite !run_bind. cbn [run fst].
  rewrite IH by exact Hops. now apply mem_operate_keeps.
Qed.

End MemWrites.

(** * The claims *)

Section ClaimsOnAnyClient.

Context {W : Type}.
Variable client : forall c : call, W -> W * response c.

(** C2: for every context and key, [Lock] and [Unlock] return nil at once:
    they make no call at all, leave the client's state as it is, and in any
    sequence of lock and unlock requests, whoever makes them and for
    whichever keys, every request returns nil, so that none waits for
    another. *)
Theorem Lock_Unlock_return_at_once (s3 : S3) (ctx : Context) (key : string)
  (w : W) (requests : list operation) :
  forallb is_lock requests = true ->
  (run client (Lock s3 ctx key) w = (w, None)
   /\ trace client (Lock s3 ctx key) w = [])
  /\ (run client (Unlock s3 ctx key) w = (w, None)
      /\ trace client (Unlock s3 ctx key) w = [])
  /\ (run client (operate_all s3 requests) w
      = (w, map (fun _ => OutError None) requests)
      /\ trace client (operate_all s3 requests) w = []).
Proof.
  intros Hlocks. repeat split.
  - revert Hlocks. induction requests as [|op ops IH]; intros H; [reflexivity |].
    simpl in H. apply andb_true_iff in H as [Hop Hops].
    destruct op; try discriminate Hop;
      cbn [operate_all operate Lock Unlock bind];
      rewrite run_bind, (IH Hops); reflexivity.
  - revert Hlocks. induction requests as [|op ops IH]; intros H; [reflexivity |].
    simpl in H. apply andb_true_iff in H as [Hop Hops].
    destruct op; try discriminate Hop;
      cbn [operate_all operate Lock Unlock bind];
      rewrite trace_bind, (IH Hops); reflexivity.
Qed.

(** C5: whenever the [StatObject] call of [Stat] fails, whatever the
    error, [Stat] returns the empty [KeyInfo] and a nil error. *)
Theorem Stat_swallows_error (s3 : S3) (ctx : Context) (key : string) (w : W)
  (e : error) :
  snd (snd (client (StatObject ctx (Bucket s3) (KeyPrefix s3 key)
                      minio.mkStatObjectOptions) w)) = Some e ->
  snd (run client (Stat s3 ctx key) w) = (certmagic.zero, None).
Proof.
  intros Hstat. pose proof (run_Stat client s3 ctx key w) as H.
  cbv zeta in H. rewrite H, Hstat. reflexivity.
Qed.

(** C6: [Exists] returns true exactly when the [StatObject] call on the
    prefixed key returns no error; any error makes it false. *)
Theorem Exists_iff_no_stat_error (s3 : S3) (ctx : Context) (key : string)
  (w : W) :
  let err :=
    snd (snd (client (StatObject ctx (Bucket s3) (KeyPrefix s3 key)
                        minio.mkStatObjectOptions) w)) in
  (snd (run client (Exists s3 ctx key) w) = true <-> err = None)
  /\ (forall e, err = Some e -> snd (run client (Exists s3 ctx key) w) = false).
Proof.
  pose proof (run_Exists client s3 ctx key w) as H. cbv zeta in H.
  cbv zeta. rewrite H. cbn [snd].
  destruct (snd (snd (client (StatObject _ _ _ _) w))) as [e|].
  - split; [split; discriminate | reflexivity].
  - split; [split; reflexivity | discriminate].
Qed.

(** C7: [Load] returns [fs.ErrNotExist] when its [Exists] pre-check says
    the object is absent; otherwise it fetches the object and returns what
    reading it to the end gives, and a failure of the fetch is returned as
    it is.  As the client hands out no [fs.ErrNotExist] for a fetch, the
    not-found error comes exactly from the pre-check. *)
Theorem Load_not_found_iff_absent (s3 : S3) (ctx : Context) (key : string)
  (w : W) :
  fetch_errors_generic client ->
  let pre := run client (Exists s3 ctx key) w in
  let loaded := run client (Load s3 ctx key) w in
  let w1 :=
    fst (client (LogDebug (Sprintf "Load key: %s" [ArgS (KeyPrefix s3 key)]))
           (fst pre)) in
  let fetched :=
    client (GetObject ctx (Bucket s3) (KeyPrefix s3 key)
              minio.mkGetObjectOptions) w1 in
  (snd pre = false -> loaded = (fst pre, ([], Some ErrNotExist)))
  /\ (snd pre = true ->
      match snd fetched with
      | inr err => loaded = (fst fetched, ([], Some err)) /\ err <> ErrNotExist
      | inl object =>
          let read := client (ReadAll object) (fst fetched) in
          loaded = (fst (client (Close object) (fst read)), snd read)
          /\ generic (snd (snd read))
      end)
  /\ (snd (snd loaded) = Some ErrNotExist <-> snd pre = false).
Proof.
  intros [Hget Hread]. cbv zeta.
  pose proof (run_Load client s3 ctx key w) as H. cbv zeta in H. rewrite H.
  clear H.
  destruct (snd (run client (Exists s3 ctx key) w)).
  - split; [discriminate |].
    match goal with
    | |- context [client (GetObject ?c ?b ?n ?o) ?w1] =>
        pose proof (Hget c b n o w1) as Hg;
        destruct (client (GetObject c b n o) w1) as [w2 [object | err]]
    end; cbn [fst snd] in *.
    + pose proof (Hread object w2) as Hr.
      destruct (client (ReadAll object) w2) as [w3 [data err]].
      cbn [fst snd] in *. split; [intros _; split; [reflexivity | exact Hr] |].
      split; [intros Herr; now apply Hr in Herr | discriminate].
    + specialize (Hg err eq_refl).
      split; [intros _; split; [reflexivity | exact Hg] |].
      split; [intros [= Herr]; now apply Hg in Herr | discriminate].
  - split; [reflexivity |]. split; [discriminate |]. split; reflexivity.
Qed.

(** C10: [Load], [Exists], [List] and [Stat] make no [PutObject] and no
    [RemoveObject] call, so that on any store whose other calls leave what
    it holds as it is, the four operations leave what it holds as it is. *)
Theorem reads_keep_the_store {O : Type} (holds : W -> O) (s3 : S3)
  (ctx : Context) (key prefix : string) (recursive : bool) (w : W) :
  (forall c w, reads c -> holds (fst (client c w)) = holds w) ->
  (holds (fst (run client (Load s3 ctx key) w)) = holds w
   /\ holds (fst (run client (Exists s3 ctx key) w)) = holds w
   /\ holds (fst (run client (List s3 ctx prefix recursive) w)) = holds w
   /\ holds (fst (run client (Stat s3 ctx key) w)) = holds w)
  /\ (Forall reads (trace client (Load s3 ctx key) w)
      /\ Forall reads (trace client (Exists s3 ctx key) w)
      /\ Forall reads (trace client (List s3 ctx prefix recursive) w)
      /\ Forall reads (trace client (Stat s3 ctx key) w)).
Proof.
  intros Hreads.
  pose proof (run_calls_only client holds reads Hreads) as H.
  pose proof (Load_reads s3 ctx key) as HLoad.
  pose proof (Exists_reads s3 ctx key) as HExists.
  pose proof (List_reads s3 ctx prefix recursive) as HList.
  pose proof (Stat_reads s3 ctx key) as HStat.
  split.
  - repeat split; apply H; assumption.
  - repeat split; apply trace_calls_only; assumption.
Qed.

(** [Store] and [Delete] return the error of their client call as it is. *)
Lemma Store_returns_client_error (s3 : S3) (ctx : Context) (key : string)
  (value : bytes) (w : W) :
  exists w1,
    snd (run client (Store s3 ctx key value) w)
    = snd (snd (client (PutObject ctx (Bucket s3) (KeyPrefix s3 key) value
                          (Z.of_nat (List.length value))
                          minio.mkPutObjectOptions) w1)).
Proof.
  pose proof (run_Store client s3 ctx key value w) as H. cbv zeta in H.
  eexists. rewrite H. reflexivity.
Qed.

Lemma Delete_returns_client_error (s3 : S3) (ctx : Context) (key : string)
  (w : W) :
  exists w1,
    snd (run client (Delete s3 ctx key) w)
    = snd (client (RemoveObject ctx (Bucket s3) (KeyPrefix s3 key)
                     minio.mkRemoveObjectOptions) w1).
Proof.
  pose proof (run_Delete client s3 ctx key w) as H. cbv zeta in H.
  eexists. rewrite H. reflexivity.
Qed.

(** [List] returns a nil error whatever the listing delivered. *)
Lemma List_error_nil (s3 : S3) (ctx : Context) (prefix : string)
  (recursive : bool) (w : W) :
  snd (snd (run client (List s3 ctx prefix recursive) w)) = None.
Proof.
  pose proof (run_List client s3 ctx prefix recursive w) as H.
  cbv zeta in H. now rewrite H.
Qed.

End ClaimsOnAnyClient.

Section ClaimsOnKeys.

(** C4, as the code has it: for every configured prefix, key-prefixing is
    injective on logical keys in clean form, that is, on keys made of
    path elements joined by single slashes; and when the configured prefix
    is empty, or is such a clean path followed by a slash,
    [CutKeyPrefix] gives back the key that [KeyPrefix] was given. *)
Theorem KeyPrefix_injective_on_clean_keys (s3 : S3) (es1 es2 ps : list string) :
  path.elements es1 = true ->
  path.elements es2 = true ->
  let k1 := strings.Join es1 "/" in
  let k2 := strings.Join es2 "/" in
  (KeyPrefix s3 k1 = KeyPrefix s3 k2 -> k1 = k2)
  /\ (Prefix s3 = ""
      \/ (path.elements ps = true /\ Prefix s3 = strings.Join ps "/" ++ "/") ->
      CutKeyPrefix s3 (KeyPrefix s3 k1) = k1).
Proof.
  intros H1 H2. cbv zeta. split.
  - unfold KeyPrefix.
    destruct (Join_elements_prefix (Prefix s3)) as [physical Hphysical].
    rewrite (Hphysical es1 H1), (Hphysical es2 H2).
    apply String.app_inj.
  - unfold CutKeyPrefix, KeyPrefix. intros [Hp | [Hps Hp]]; rewrite Hp.
    + rewrite Join_no_prefix by now apply Join_nonempty.
      now rewrite Clean_elements.
    + rewrite (Join_elements_slash ps es1 Hps H1), CutPrefix_append.
      reflexivity.
Qed.

Lemma KeyPrefix_injective_on_clean_keys_witness :
  path.elements ["example.com"; "cert.pem"] = true
  /\ path.elements ["example.com"; "key.pem"] = true
  /\ (KeyPrefix (with_prefix "ssl/") "example.com/cert.pem"
      = KeyPrefix (with_prefix "ssl/") "example.com/key.pem" ->
      "example.com/cert.pem" = "example.com/key.pem")
  /\ CutKeyPrefix (with_prefix "ssl/")
       (KeyPrefix (with_prefix "ssl/") "example.com/cert.pem")
     = "example.com/cert.pem".
Proof.
  destruct (KeyPrefix_injective_on_clean_keys (with_prefix "ssl/")
              ["example.com"; "cert.pem"] ["example.com"; "key.pem"] ["ssl"]
              eq_refl eq_refl) as [Hinj Hcut].
  split; [reflexivity |]. split; [reflexivity |]. split; [exact Hinj |].
  apply Hcut. right. split; reflexivity.
Defined.

(** C4 as stated fails: a key that is not clean is not given back, even
    with an empty prefix; two distinct keys share one prefixed key; and
    with the prefix [ssl] the clean key comes back with a slash in front. *)
Lemma KeyPrefix_not_reversible :
  CutKeyPrefix (with_prefix "")
    (KeyPrefix (with_prefix "") "example.com//cert.pem")
  <> "example.com//cert.pem"
  /\ ("example.com" <> "example.com/"
      /\ KeyPrefix example_s3 "example.com" = KeyPrefix example_s3 "example.com/")
  /\ CutKeyPrefix example_s3 (KeyPrefix example_s3 "example.com/cert.pem")
     <> "example.com/cert.pem".
Proof.
  split; [| split; [split |]]; vm_compute; congruence.
Qed.

(** C8, as the code has it: the object named in the calls of [Store],
    [Load], [Delete], [Exists] and [Stat] is [path.Join] of the configured
    prefix and the key, and that is the prefix, a slash and the key when
    both are clean relative paths. *)
Theorem physical_key_is_Join {W : Type}
  (client : forall c : call, W -> W * response c)
  (s3 : S3) (ctx : Context) (key : string) (value : bytes) (w : W) :
  let physical := (Bucket s3, path.Join [Prefix s3; key]) in
  (object_names (trace client (Store s3 ctx key value) w) = [physical]
   /\ object_names (trace client (Delete s3 ctx key) w) = [physical]
   /\ object_names (trace client (Exists s3 ctx key) w) = [physical]
   /\ object_names (trace client (Stat s3 ctx key) w) = [physical]
   /\ (object_names (trace client (Load s3 ctx key) w) = [physical]
       \/ object_names (trace client (Load s3 ctx key) w)
          = [physical; physical]))
  /\ (forall ps es,
         path.elements ps = true -> path.elements es = true ->
         Prefix s3 = strings.Join ps "/" -> key = strings.Join es "/" ->
         path.Join [Prefix s3; key] = Prefix s3 ++ "/" ++ key).
Proof.
  cbv zeta. fold (KeyPrefix s3 key). split.
  - rewrite names_Store, names_Delete, names_Exists, names_Stat, names_Load.
    repeat split. destruct (snd (run client (Exists s3 ctx key) w)); auto.
  - unfold KeyPrefix. intros ps es Hps Hes Hp Hk. rewrite Hp, Hk.
    now apply Join_elements.
Qed.

Lemma physical_key_is_Join_witness :
  path.elements ["ssl"] = true
  /\ path.elements ["example.com"; "cert.pem"] = true
  /\ object_names
       (trace mem.client
          (Store example_s3 Background "example.com/cert.pem" pem) mem.empty)
     = [("my-cert-bucket", path.Join ["ssl"; "example.com/cert.pem"])]
  /\ path.Join ["ssl"; "example.com/cert.pem"] = "ssl/example.com/cert.pem".
Proof.
  destruct (physical_key_is_Join mem.client example_s3 Background
              "example.com/cert.pem" pem mem.empty) as [[Hstore _] Hjoin].
  split; [reflexivity |]. split; [reflexivity |]. split; [exact Hstore |].
  exact (Hjoin ["ssl"] ["example.com"; "cert.pem"] eq_refl eq_refl eq_refl
           eq_refl).
Defined.

(** C8 as stated fails: with an empty prefix no slash is put in front, and
    a key that ends in a slash loses it. *)
Lemma physical_key_not_concatenation :
  object_names
    (trace mem.client
       (Store (with_prefix "") Background "example.com" pem) mem.empty)
  = [("my-cert-bucket", "example.com")]
  /\ "example.com" <> "" ++ "/" ++ "example.com"
  /\ object_names
       (trace mem.client (Store example_s3 Background "example.com/" pem)
          mem.empty)
     = [("my-cert-bucket", "ssl/example.com")]
  /\ "ssl/example.com" <> "ssl" ++ "/" ++ "example.com/".
Proof.
  split; [reflexivity |]. split; [vm_compute; congruence |].
  split; [reflexivity |]. vm_compute; congruence.
Qed.

End ClaimsOnKeys.

Section ClaimsOnTheStore.

(** C1: when [Store] of a key and a value succeeds, and the requests that
    follow neither delete nor overwrite the object of that key, a later
    [Load] of the key on a store that answers returns exactly the value. *)
Theorem Store_then_Load (s3 : S3) (ctx ctx' : Context) (key : string)
  (value : bytes) (between : list operation) (w : mem.World) :
  let stored := run mem.client (Store s3 ctx key value) w in
  let later := fst (run mem.client (operate_all s3 between) (fst stored)) in
  snd stored = None ->
  forallb (fun op => negb (writes_to s3 (KeyPrefix s3 key) op)) between = true ->
  mem.reliable 3 later ->
  snd (run mem.client (Load s3 ctx' key) later) = (value, None).
Proof.
  intros stored later Hstored Hbetween Hreliable.
  pose proof (mem_Store_objects s3 ctx key value w) as H. cbv zeta in H.
  fold stored in H. rewrite Hstored in H. destruct H as (o & Hvalue & Hobjects).
  assert (Ho : mem.objects later !! (Bucket s3, KeyPrefix s3 key) = Some o).
  { unfold later. rewrite mem_operate_all_keeps by exact Hbetween.
    rewrite Hobjects. apply lookup_insert_eq. }
  rewrite (mem_Load_present s3 ctx' key later o Hreliable Ho).
  now rewrite Hvalue.
Qed.

Lemma Store_then_Load_witness :
  snd (run mem.client
         (Store example_s3 Background "example.com/cert.pem" pem) mem.empty)
  = None
  /\ snd (run mem.client
            (Load example_s3 (Request 7) "example.com/cert.pem")
            (fst (run mem.client
                    (operate_all example_s3
                       [OpStore Background "example.com/key.pem" [];
                        OpList Background "example.com" true;
                        OpDelete Background "other.org/cert.pem";
                        OpLock Background "example.com/cert.pem"])
                    (fst (run mem.client
                            (Store example_s3 Background
                               "example.com/cert.pem" pem) mem.empty)))))
     = (pem, None).
Proof.
  split; [reflexivity |].
  apply (Store_then_Load example_s3 Background (Request 7)
           "example.com/cert.pem" pem
           [OpStore Background "example.com/key.pem" [];
            OpList Background "example.com" true;
            OpDelete Background "other.org/cert.pem";
            OpLock Background "example.com/cert.pem"] mem.empty).
  - reflexivity.
  - reflexivity.
  - unfold mem.reliable. vm_compute. constructor.
Defined.

(** C3 at a listing that fails: the channel delivers the failure in the
    [Err] field of its one value, and [List] returns a nil error with one
    empty key.  [List] returns a nil error on every run. *)
Theorem List_drops_listing_error :
  map minio.Err
    (minio.chan_items
       (snd (mem.client
               (ListObjects Background (Bucket example_s3)
                  {| minio.Prefix := KeyPrefix example_s3 "example.com";
                     minio.Recursive := true |}) refusing)))
  = [Some (ErrorResponse "AccessDenied" "Access Denied.")]
  /\ snd (run mem.client (List example_s3 Background "example.com" true)
            refusing)
     = ([""], None)
  /\ (forall (W : Type) (client : forall c : call, W -> W * response c)
        s3 ctx prefix recursive w,
         snd (snd (run client (List s3 ctx prefix recursive) w)) = None).
Proof.
  split; [reflexivity |]. split; [reflexivity |].
  intros W client s3 ctx prefix recursive w. apply List_error_nil.
Qed.

(** C9 at a stored certificate: [Stat] reports the key under which the
    store holds the object, configured prefix included, where [List]
    cuts the prefix off. *)
Theorem Stat_reports_prefixed_key :
  certmagic.Key
    (fst (snd (run mem.client
                 (Stat example_s3 Background "example.com/cert.pem") holding)))
  = "ssl/example.com/cert.pem"
  /\ snd (run mem.client (List example_s3 Background "example.com" true)
            holding)
     = (["/example.com/cert.pem"], None).
Proof. split; reflexivity. Qed.

Lemma Lock_Unlock_return_at_once_witness :
  forallb is_lock
    [OpLock Background "example.com"; OpLock (Request 2) "example.com";
     OpUnlock (Request 2) "example.com"; OpUnlock (Request 3) "other.org"]
  = true
  /\ run mem.client (Lock example_s3 (Request 2) "example.com") holding
     = (holding, None)
  /\ run mem.client
       (operate_all example_s3
          [OpLock Background "example.com"; OpLock (Request 2) "example.com";
           OpUnlock (Request 2) "example.com"; OpUnlock (Request 3) "other.org"])
       holding
     = (holding, [OutError None; OutError None; OutError None; OutError None]).
Proof.
  destruct (Lock_Unlock_return_at_once mem.client example_s3 (Request 2)
              "example.com" holding
              [OpLock Background "example.com"; OpLock (Request 2) "example.com";
               OpUnlock (Request 2) "example.com";
               OpUnlock (Request 3) "other.org"] eq_refl)
    as [[Hlock _] [_ [Hall _]]].
  split; [reflexivity |]. split; [exact Hlock | exact Hall].
Defined.

Lemma Stat_swallows_error_witness :
  snd (snd (mem.client
              (StatObject Background (Bucket example_s3)
                 (KeyPrefix example_s3 "example.com/cert.pem")
                 minio.mkStatObjectOptions) refusing))
  = Some (ErrorResponse "AccessDenied" "Access Denied.")
  /\ snd (run mem.client (Stat example_s3 Background "example.com/cert.pem")
            refusing)
     = (certmagic.zero, None).
Proof.
  split; [reflexivity |].
  apply (Stat_swallows_error mem.client example_s3 Background
           "example.com/cert.pem" refusing
           (ErrorResponse "AccessDenied" "Access Denied.")).
  reflexivity.
Defined.

Lemma Load_not_found_iff_absent_witness :
  fetch_errors_generic mem.client
  /\ snd (run mem.client (Load example_s3 Background "other.org/cert.pem")
            holding)
     = ([], Some ErrNotExist)
  /\ snd (run mem.client (Load example_s3 Background "example.com/cert.pem")
            refusing)
     = ([], Some ErrNotExist).
Proof.
  split; [exact mem_client_fetch_errors_generic |].
  destruct (Load_not_found_iff_absent mem.client example_s3 Background
              "other.org/cert.pem" holding mem_client_fetch_errors_generic)
    as [Habsent _].
  destruct (Load_not_found_iff_absent mem.client example_s3 Background
              "example.com/cert.pem" refusing mem_client_fetch_errors_generic)
    as [Hrefused _].
  split.
  - now rewrite (Habsent eq_refl).
  - now rewrite (Hrefused eq_refl).
Defined.

Lemma reads_keep_the_store_witness :
  (forall c w, reads c -> mem.objects (fst (mem.client c w)) = mem.objects w)
  /\ mem.objects
       (fst (run mem.client
               (Load example_s3 Background "example.com/cert.pem") holding))
     = mem.objects holding
  /\ mem.objects
       (fst (run mem.client (List example_s3 Background "" true) holding))
     = mem.objects holding.
Proof.
  split; [exact mem_client_reads |].
  destruct (reads_keep_the_store mem.client mem.objects example_s3 Background
              "example.com/cert.pem" "" true holding mem_client_reads)
    as [(Hload & _ & Hlist & _) _].
  split; [exact Hload | exact Hlist].
Defined.

End ClaimsOnTheStore.

(** * Configuration *)

Section ConfigurationFacts.

Variable url_Parse : string -> url.URL + string.
Context {Client : Type}.
Variable minio_New : string -> Options -> Client + string.

Lemma ParseBool_error (str : string) (e : config_error) :
  snd (strconv.ParseBool str) = Some e -> fst (strconv.ParseBool str) = false.
Proof.
  unfold strconv.ParseBool.
  repeat match goal with
         | |- context [if ?b then _ else _] => destruct b
         end; simpl; congruence.
Qed.

(** A flag that is off takes the parsed variable; a variable that is not
    set or does not parse leaves it off. *)
Lemma load_flag (value : string) :
  (if negb (String.eqb value "") then
     let '(parsed, err) := strconv.ParseBool value in
     match err with Some _ => false | None => parsed end
   else false)
  = fst (strconv.ParseBool value).
Proof.
  destruct (String.eqb_spec value "") as [-> | _]; [reflexivity |].
  cbn [negb]. pose proof (ParseBool_error value) as H.
  destruct (strconv.ParseBool value) as [parsed [e|]]; [| reflexivity].
  symmetry. now apply (H e).
Qed.

Lemma load_Host_eq (env : gmap string string) (s3 : S3) :
  load_Host env s3 = set_Host (field env (Host s3) "S3_HOST") s3.
Proof.
  unfold load_Host, field. destruct s3 as [h b a s p i u]. cbn [Host].
  now destruct (String.eqb h "").
Qed.

Lemma load_Prefix_eq (env : gmap string string) (s3 : S3) :
  load_Prefix env s3 = set_Prefix (field env (Prefix s3) "S3_PREFIX") s3.
Proof.
  unfold load_Prefix, field. destruct s3 as [h b a s p i u]. cbn [Prefix].
  now destruct (String.eqb p "").
Qed.

Lemma load_UseIamProvider_eq (env : gmap string string) (s3 : S3) :
  load_UseIamProvider env s3
  = set_UseIamProvider
      (UseIamProvider s3
       || fst (strconv.ParseBool (Getenv env "S3_USE_IAM_PROVIDER"))) s3.
Proof.
  unfold load_UseIamProvider. destruct s3 as [h b a s p i u].
  cbn [UseIamProvider]. destruct u; [reflexivity |]. cbn [negb orb].
  rewrite <- load_flag.
  destruct (negb (String.eqb (Getenv env "S3_USE_IAM_PROVIDER") ""));
    [| reflexivity].
  now destruct (strconv.ParseBool _) as [parsed [e|]].
Qed.

Lemma load_Insecure_eq (env : gmap string string) (s3 : S3) :
  load_Insecure env s3
  = set_Insecure
      (Insecure s3 || fst (strconv.ParseBool (Getenv env "S3_INSECURE"))) s3.
Proof.
  unfold load_Insecure. destruct s3 as [h b a s p i u].
  cbn [Insecure]. destruct i; [reflexivity |]. cbn [negb orb].
  rewrite <- load_flag.
  destruct (negb (String.eqb (Getenv env "S3_INSECURE") "")); [| reflexivity].
  now destruct (strconv.ParseBool _) as [parsed [e|]].
Qed.

Lemma load_Bucket_eq (env : gmap string string) (s3 : S3) :
  load_Bucket env s3
  = (set_Bucket (field env (Bucket s3) "S3_BUCKET") s3,
     if String.eqb (field env (Bucket s3) "S3_BUCKET") ""
     then Some (errors_New "bucket is empty") else None).
Proof.
  unfold load_Bucket, field. destruct s3 as [h b a s p i u].
  cbn [Bucket set_Bucket].
  destruct (String.eqb b "") eqn:Hb; [| now rewrite Hb].
  now destruct (String.eqb (Getenv env "S3_BUCKET") "").
Qed.

Lemma load_AccessID_eq (env : gmap string string) (s3 : S3) :
  load_AccessID env s3
  = (set_AccessID (field env (AccessID s3) "S3_ACCESS_ID") s3,
     if String.eqb (field env (AccessID s3) "S3_ACCESS_ID") ""
        && negb (UseIamProvider s3)
     then Some (errors_New "access_id is empty and use_iam_provider is false")
     else None).
Proof.
  unfold load_AccessID, field. destruct s3 as [h b a s p i u].
  cbn [AccessID set_AccessID UseIamProvider].
  destruct (String.eqb a "") eqn:Ha; [| now rewrite Ha].
  now destruct (String.eqb (Getenv env "S3_ACCESS_ID") "" && negb u).
Qed.

Lemma load_SecretKey_eq (env : gmap string string) (s3 : S3) :
  load_SecretKey env s3
  = (set_SecretKey (field env (SecretKey s3) "S3_SECRET_KEY") s3,
     if String.eqb (field env (SecretKey s3) "S3_SECRET_KEY") ""
        && negb (UseIamProvider s3)
     then Some (errors_New "secret_key is empty and use_iam_provider is false")
     else None).
Proof.
  unfold load_SecretKey, field. destruct s3 as [h b a s p i u].
  cbn [SecretKey set_SecretKey UseIamProvider].
  destruct (String.eqb s "") eqn:Hs; [| now rewrite Hs].
  now destruct (String.eqb (Getenv env "S3_SECRET_KEY") "" && negb u).
Qed.

(** [Provision] in one piece: the checks in their order, each on the
    configuration with the environment filled in; on success that
    configuration is what the adapter holds, and the client is the one
    [minio.New] makes for it. *)
Lemma Provision_eq (env : gmap string string) (s3 : S3) :
  let cfg := resolve env s3 in
  let r := Provision url_Parse minio_New env s3 in
  match validateHost url_Parse (Host cfg) with
  | Some err => provisioned_err r = Some err
  | None =>
      if String.eqb (Bucket cfg) "" then
        provisioned_err r = Some (errors_New "bucket is empty")
      else if String.eqb (AccessID cfg) "" && negb (UseIamProvider cfg) then
        provisioned_err r
        = Some (errors_New "access_id is empty and use_iam_provider is false")
      else if String.eqb (SecretKey cfg) "" && negb (UseIamProvider cfg) then
        provisioned_err r
        = Some (errors_New "secret_key is empty and use_iam_provider is false")
      else
        match minio_New (Host cfg) (client_options cfg) with
        | inr err =>
            provisioned_err r = Some (minio_Error err)
            /\ provisioned_client r = None
        | inl client =>
            r = {| provisioned_s3 := cfg;
                   provisioned_info := [fst (choose_credentials cfg)];
                   provisioned_client := Some client;
                   provisioned_err := None |}
        end
  end.
Proof.
  destruct s3 as [h b a s p i u]. cbv zeta.
  assert (Hcfg : resolve env (mkS3 h b a s p i u)
                 = mkS3 (field env h "S3_HOST") (field env b "S3_BUCKET")
                     (field env a "S3_ACCESS_ID") (field env s "S3_SECRET_KEY")
                     (field env p "S3_PREFIX")
                     (i || fst (strconv.ParseBool (Getenv env "S3_INSECURE")))
                     (u || fst (strconv.ParseBool
                                  (Getenv env "S3_USE_IAM_PROVIDER"))))
    by reflexivity.
  rewrite Hcfg. clear Hcfg.
  unfold Provision, client_options. cbv zeta.
  rewrite load_Host_eq, load_UseIamProvider_eq, load_Bucket_eq.
  cbn [Host Bucket AccessID SecretKey Prefix Insecure UseIamProvider
       set_Host set_Bucket set_AccessID set_SecretKey set_Prefix set_Insecure
       set_UseIamProvider].
  destruct (validateHost url_Parse (field env h "S3_HOST")) as [verr|];
    [reflexivity |].
  destruct (String.eqb (field env b "S3_BUCKET") ""); [reflexivity |].
  rewrite load_AccessID_eq.
  cbn [Host Bucket AccessID SecretKey Prefix Insecure UseIamProvider
       set_Host set_Bucket set_AccessID set_SecretKey set_Prefix set_Insecure
       set_UseIamProvider].
  destruct (String.eqb (field env a "S3_ACCESS_ID") "" && negb _);
    [reflexivity |].
  rewrite load_SecretKey_eq.
  cbn [Host Bucket AccessID SecretKey Prefix Insecure UseIamProvider
       set_Host set_Bucket set_AccessID set_SecretKey set_Prefix set_Insecure
       set_UseIamProvider].
  destruct (String.eqb (field env s "S3_SECRET_KEY") "" && negb _);
    [reflexivity |].
  rewrite load_Prefix_eq, load_Insecure_eq.
  cbn [Host Bucket AccessID SecretKey Prefix Insecure UseIamProvider
       set_Host set_Bucket set_AccessID set_SecretKey set_Prefix set_Insecure
       set_UseIamProvider].
  unfold choose_credentials.
  cbn [Host Bucket AccessID SecretKey Prefix Insecure UseIamProvider
       set_Host set_Bucket set_AccessID set_SecretKey set_Prefix set_Insecure
       set_UseIamProvider].
  destruct (u || fst (strconv.ParseBool (Getenv env "S3_USE_IAM_PROVIDER")));
    cbn [fst];
    match goal with
    | |- context [minio_New ?x ?y] => destruct (minio_New x y)
    end; auto.
Qed.

Lemma resolve_idempotent (env : gmap string string) (s3 : S3) :
  resolve env (resolve env s3) = resolve env s3.
Proof.
  destruct s3 as [h b a s p i u]. unfold resolve.
  cbn [Host Bucket AccessID SecretKey Prefix Insecure UseIamProvider].
  f_equal;
    try (match goal with
         | |- context [String.eqb ?v ""] =>
             destruct (String.eqb v "") eqn:Hv; [| now rewrite Hv]
         end;
         match goal with
         | |- context [String.eqb ?v ""] =>
             now destruct (String.eqb_spec v "")
         end);
    now rewrite <- orb_assoc, orb_diag.
Qed.

(** X1: when [Provision] succeeds, every string field that was configured
    is kept and every empty one holds its environment variable; a flag is
    on when it was configured on or its variable parses as true. *)
Theorem Provision_fills_in_environment (env : gmap string string) (s3 : S3) :
  provisioned_err (Provision url_Parse minio_New env s3) = None ->
  let s3' := provisioned_s3 (Provision url_Parse minio_New env s3) in
  let field (v name : string) :=
    if String.eqb v "" then Getenv env name else v in
  Host s3' = field (Host s3) "S3_HOST"
  /\ Bucket s3' = field (Bucket s3) "S3_BUCKET"
  /\ AccessID s3' = field (AccessID s3) "S3_ACCESS_ID"
  /\ SecretKey s3' = field (SecretKey s3) "S3_SECRET_KEY"
  /\ Prefix s3' = field (Prefix s3) "S3_PREFIX"
  /\ Insecure s3'
     = Insecure s3 || fst (strconv.ParseBool (Getenv env "S3_INSECURE"))
  /\ UseIamProvider s3'
     = UseIamProvider s3
       || fst (strconv.ParseBool (Getenv env "S3_USE_IAM_PROVIDER")).
Proof.
  intros Hok. pose proof (Provision_eq env s3) as H. cbv zeta in H.
  destruct (validateHost _ _); [congruence |].
  destruct (String.eqb _ ""); [congruence |].
  destruct (_ && _); [congruence |].
  destruct (_ && _); [congruence |].
  destruct (minio_New _ _) as [client | err]; [| destruct H; congruence].
  cbv zeta. rewrite H. cbn [provisioned_s3]. repeat split.
Qed.

(** X2: [Provision] succeeds exactly when, with the environment filled
    in, the host passes [validateHost], the bucket is not empty, the
    access id and the secret key are not empty unless the IAM provider is
    used, and [minio.New] makes a client. *)
Theorem Provision_succeeds_iff (env : gmap string string) (s3 : S3) :
  let cfg := resolve env s3 in
  provisioned_err (Provision url_Parse minio_New env s3) = None
  <-> validateHost url_Parse (Host cfg) = None
      /\ Bucket cfg <> ""
      /\ (UseIamProvider cfg = true \/ AccessID cfg <> "" /\ SecretKey cfg <> "")
      /\ exists client, minio_New (Host cfg) (client_options cfg) = inl client.
Proof.
  pose proof (Provision_eq env s3) as H. cbv zeta in H. cbv zeta.
  destruct (validateHost _ _) as [verr|];
    [rewrite H; split; [discriminate | intros [? _]; discriminate] |].
  destruct (String.eqb_spec (Bucket (resolve env s3)) "") as [Hb | Hb];
    [rewrite H; split; [discriminate | intros (_ & ? & _); congruence] |].
  destruct (String.eqb_spec (AccessID (resolve env s3)) "") as [Ha | Ha];
    destruct (UseIamProvider (resolve env s3)) eqn:Hu; cbn [andb negb] in H;
    try (rewrite H; split;
         [discriminate | intros (_ & _ & [? | [? ?]] & _); congruence]);
    (destruct (String.eqb_spec (SecretKey (resolve env s3)) "") as [Hs | Hs];
     cbn [andb negb] in H;
     try (rewrite H; split;
          [discriminate | intros (_ & _ & [? | [? ?]] & _); congruence]));
    (destruct (minio_New _ _) as [client | err];
     [rewrite H; cbn [provisioned_err]; split; [intros _ | reflexivity];
      repeat split; auto; eauto
     | destruct H as [H _]; rewrite H; split;
       [discriminate | intros (_ & _ & _ & [c Hc]); discriminate]]).
Qed.

(** X3: the client [Provision] keeps is the one [minio.New] makes for the
    resolved host, with TLS on unless [Insecure], and with the IAM
    credentials when [UseIamProvider] and the static pair of access id and
    secret key otherwise. *)
Theorem Provision_client (env : gmap string string) (s3 : S3) :
  provisioned_err (Provision url_Parse minio_New env s3) = None ->
  let r := Provision url_Parse minio_New env s3 in
  let s3' := provisioned_s3 r in
  exists client,
    provisioned_client r = Some client
    /\ minio_New (Host s3')
         {| Creds :=
              if UseIamProvider s3' then credentials.NewIAM ""
              else credentials.NewStaticV4 (AccessID s3') (SecretKey s3') "";
            Secure := negb (Insecure s3') |}
       = inl client.
Proof.
  intros Hok. pose proof (Provision_eq env s3) as H. cbv zeta in H.
  destruct (validateHost _ _); [congruence |].
  destruct (String.eqb _ ""); [congruence |].
  destruct (_ && _); [congruence |].
  destruct (_ && _); [congruence |].
  destruct (minio_New _ _) as [client | err] eqn:Hnew;
    [| destruct H; congruence].
  cbv zeta. rewrite H. cbn [provisioned_s3 provisioned_client].
  exists client. split; [reflexivity | exact Hnew].
Qed.

(** X4: each of the three configuration errors of [Provision] is returned
    exactly when the host is valid, the earlier checks pass and the field
    is empty in the configuration and in the environment (for the access
    id and the secret key: and the IAM provider is not used). *)
Theorem Provision_missing_field (env : gmap string string) (s3 : S3) :
  let cfg := resolve env s3 in
  let err := provisioned_err (Provision url_Parse minio_New env s3) in
  let host_ok := validateHost url_Parse (Host cfg) = None in
  (err = Some (errors_New "bucket is empty")
   <-> host_ok /\ Bucket cfg = "")
  /\ (err = Some (errors_New "access_id is empty and use_iam_provider is false")
      <-> host_ok /\ Bucket cfg <> "" /\ AccessID cfg = ""
          /\ UseIamProvider cfg = false)
  /\ (err = Some (errors_New "secret_key is empty and use_iam_provider is false")
      <-> host_ok /\ Bucket cfg <> "" /\ AccessID cfg <> ""
          /\ SecretKey cfg = "" /\ UseIamProvider cfg = false).
Proof.
  pose proof (Provision_eq env s3) as H. cbv zeta in H. cbv zeta.
  unfold validateHost in *.
  destruct (url_Parse (Host (resolve env s3))) as [u | perr].
  2:{ rewrite H. repeat split; try discriminate; intros [? _]; discriminate. }
  destruct (negb (String.eqb (url.Scheme u) "")).
  { rewrite H. repeat split; try discriminate; intros [? _]; discriminate. }
  destruct (String.eqb_spec (Bucket (resolve env s3)) "") as [Hb | Hb].
  { rewrite H. repeat split; try discriminate; auto;
      intros (_ & ? & _); congruence. }
  destruct (String.eqb_spec (AccessID (resolve env s3)) "") as [Ha | Ha];
    destruct (UseIamProvider (resolve env s3)) eqn:Hu; cbn [andb negb] in H;
    try (rewrite H; repeat split; try discriminate; auto;
         try (intros [_ ?]; congruence);
         intros (_ & _ & ? & ?); congruence);
    (destruct (String.eqb_spec (SecretKey (resolve env s3)) "") as [Hs | Hs];
     cbn [andb negb] in H;
     try (rewrite H; repeat split; try discriminate; auto;
          try (intros [_ ?]; congruence);
          try (intros (_ & _ & ? & ?); congruence);
          intros (_ & _ & _ & ? & ?); congruence));
    (destruct (minio_New _ _) as [client | merr];
     [rewrite H | destruct H as [H _]; rewrite H];
     cbn [provisioned_err];
     repeat split; try discriminate;
     try (intros [_ ?]; congruence);
     try (intros (_ & _ & ? & ?); congruence);
     intros (_ & _ & _ & ? & ?); congruence).
Qed.

(** X5: a successful [Provision] is a fixed point: provisioning again,
    from the fields it left and in the same environment, gives the same
    fields, the same log line and the same client. *)
Theorem Provision_again (env : gmap string string) (s3 : S3) :
  provisioned_err (Provision url_Parse minio_New env s3) = None ->
  Provision url_Parse minio_New env
    (provisioned_s3 (Provision url_Parse minio_New env s3))
  = Provision url_Parse minio_New env s3.
Proof.
  intros Hok. pose proof (Provision_eq env s3) as H. cbv zeta in H.
  pose proof (Provision_eq env (resolve env s3)) as H'. cbv zeta in H'.
  rewrite resolve_idempotent in H'.
  destruct (validateHost _ _); [congruence |].
  destruct (String.eqb _ ""); [congruence |].
  destruct (_ && _); [congruence |].
  destruct (_ && _); [congruence |].
  destruct (minio_New _ _) as [client | err]; [| destruct H; congruence].
  rewrite H at 1. cbn [provisioned_s3]. now rewrite H, H'.
Qed.

End ConfigurationFacts.

Section UnmarshalFacts.

Variable url_Parse : string -> url.URL + string.

Lemma last_cons {A : Type} (a : A) (l : list A) (d : A) :
  List.last (a :: l) d = List.last l a.
Proof.
  revert a d. induction l as [|b l IH]; intros a d; [reflexivity |].
  change (List.last (a :: b :: l) d) with (List.last (b :: l) d).
  now rewrite (IH b d), (IH b a).
Qed.

Lemma directive_args_cons (key k : string) (arg : option string)
  (d : Dispenser) :
  directive_args key ((k, arg) :: d)
  = match (if String.eqb k key then arg else None) with
    | Some v => v :: directive_args key d
    | None => directive_args key d
    end.
Proof. reflexivity. Qed.

Lemma last_arg_cons (key k : string) (arg : option string) (d : Dispenser)
  (old : string) :
  last_arg key ((k, arg) :: d) old
  = last_arg key d
      match (if String.eqb k key then arg else None) with
      | Some v => v
      | None => old
      end.
Proof.
  unfold last_arg. rewrite directive_args_cons.
  destruct (if String.eqb k key then arg else None); [apply last_cons |].
  reflexivity.
Qed.

Lemma last_flag_cons (key k : string) (arg : option string) (d : Dispenser)
  (old : bool) :
  last_flag key ((k, arg) :: d) old
  = last_flag key d
      match (if String.eqb k key then arg else None) with
      | Some v => fst (strconv.ParseBool v)
      | None => old
      end.
Proof.
  unfold last_flag. rewrite directive_args_cons.
  destruct (if String.eqb k key then arg else None); [apply last_cons |].
  reflexivity.
Qed.

(** X6: [UnmarshalCaddyfile] returns nil exactly when every [host]
    argument passes [validateHost] and every [insecure] and
    [use_iam_provider] argument parses as a boolean; unknown directives
    and directives without argument never make it fail. *)
Theorem UnmarshalCaddyfile_succeeds_iff (d : Dispenser) (s3 : S3) :
  snd (UnmarshalCaddyfile url_Parse d s3) = None
  <-> forallb (entry_valid url_Parse) d = true.
Proof.
  revert s3. induction d as [|[key [value|]] d IH]; intros s3;
    cbn [UnmarshalCaddyfile forallb entry_valid].
  - tauto.
  - destruct (String.eqb_spec key "host") as [-> | _].
    { cbn [Host set_Host]. destruct (validateHost url_Parse value);
        [cbn; split; discriminate | apply IH]. }
    destruct (String.eqb_spec key "bucket") as [-> | _]; [apply IH |].
    destruct (String.eqb_spec key "access_id") as [-> | _]; [apply IH |].
    destruct (String.eqb_spec key "secret_key") as [-> | _]; [apply IH |].
    destruct (String.eqb_spec key "prefix") as [-> | _]; [apply IH |].
    destruct (String.eqb_spec key "insecure") as [-> | _].
    { cbn [orb]. destruct (strconv.ParseBool value) as [b [e|]];
        [cbn; split; discriminate | apply IH]. }
    destruct (String.eqb_spec key "use_iam_provider") as [-> | _].
    { cbn [orb]. destruct (strconv.ParseBool value) as [b [e|]];
        [cbn; split; discriminate | apply IH]. }
    apply IH.
  - apply IH.
Qed.

Lemma UnmarshalCaddyfile_fields (d : Dispenser) (s3 : S3) :
  snd (UnmarshalCaddyfile url_Parse d s3) = None ->
  let s3' := fst (UnmarshalCaddyfile url_Parse d s3) in
  Host s3' = last_arg "host" d (Host s3)
  /\ Bucket s3' = last_arg "bucket" d (Bucket s3)
  /\ AccessID s3' = last_arg "access_id" d (AccessID s3)
  /\ SecretKey s3' = last_arg "secret_key" d (SecretKey s3)
  /\ Prefix s3' = last_arg "prefix" d (Prefix s3)
  /\ Insecure s3' = last_flag "insecure" d (Insecure s3)
  /\ UseIamProvider s3' = last_flag "use_iam_provider" d (UseIamProvider s3).
Proof.
  cbv zeta. revert s3.
  induction d as [|[key [value|]] d IH]; intros s3;
    rewrite ?last_arg_cons, ?last_flag_cons;
    cbn [UnmarshalCaddyfile].
  - intros _. repeat split.
  - destruct (String.eqb_spec key "host") as [-> | _].
    { cbn [Host set_Host]. destruct (validateHost url_Parse value);
        [discriminate |]. intros Hok. apply (IH _ Hok). }
    destruct (String.eqb_spec key "bucket") as [-> | _];
      [intros Hok; apply (IH _ Hok) |].
    destruct (String.eqb_spec key "access_id") as [-> | _];
      [intros Hok; apply (IH _ Hok) |].
    destruct (String.eqb_spec key "secret_key") as [-> | _];
      [intros Hok; apply (IH _ Hok) |].
    destruct (String.eqb_spec key "prefix") as [-> | _];
      [intros Hok; apply (IH _ Hok) |].
    destruct (String.eqb_spec key "insecure") as [-> | _].
    { destruct (strconv.ParseBool value) as [b [e|]]; [discriminate |].
      intros Hok. apply (IH _ Hok). }
    destruct (String.eqb_spec key "use_iam_provider") as [-> | _].
    { destruct (strconv.ParseBool value) as [b [e|]]; [discriminate |].
      intros Hok. apply (IH _ Hok). }
    intros Hok. apply (IH _ Hok).
  - intros Hok. rewrite !Tauto.if_same. apply (IH _ Hok).
Qed.

(** X7: when [UnmarshalCaddyfile] returns nil, every field holds the last
    argument given to its directive, and is as before when the directive
    does not occur with an argument. *)
Theorem UnmarshalCaddyfile_last_wins (d : Dispenser) (s3 : S3) :
  snd (UnmarshalCaddyfile url_Parse d s3) = None ->
  let s3' := fst (UnmarshalCaddyfile url_Parse d s3) in
  Host s3' = last_arg "host" d (Host s3)
  /\ Bucket s3' = last_arg "bucket" d (Bucket s3)
  /\ AccessID s3' = last_arg "access_id" d (AccessID s3)
  /\ SecretKey s3' = last_arg "secret_key" d (SecretKey s3)
  /\ Prefix s3' = last_arg "prefix" d (Prefix s3)
  /\ Insecure s3' = last_flag "insecure" d (Insecure s3)
  /\ UseIamProvider s3' = last_flag "use_iam_provider" d (UseIamProvider s3).
Proof. exact (UnmarshalCaddyfile_fields d s3). Qed.

End UnmarshalFacts.

(** * The adapter on the store: further properties *)

Section StoreFacts.



Lemma mem_Stat_present (s3 : S3) (ctx : Context) (key : string)
  (w : mem.World) (o : mem.StoredObject) :
  mem.reliable 1 w ->
  mem.objects w !! (Bucket s3, KeyPrefix s3 key) = Some o ->
  snd (run mem.client (Stat s3 ctx key) w)
  = ({| certmagic.Key := KeyPrefix s3 key;
        certmagic.Modified := mem.modified o;
        certmagic.Size := Z.of_nat (List.length (mem.content o));
        certmagic.IsTerminal := strings.HasSuffix (KeyPrefix s3 key) "/" |},
     None)
  /\ snd (run mem.client (Exists s3 ctx key) w) = true.
Proof.
  intros Hrel Ho.
  pose proof (run_Stat mem.client s3 ctx key w) as HS. cbv zeta in HS.
  pose proof (run_Exists mem.client s3 ctx key w) as HE. cbv zeta in HE.
  rewrite HS, HE. clear HS HE. cbn [snd].
  revert Ho. generalize (KeyPrefix s3 key) as pk. intros pk Ho.
  simpl (mem.client (StatObject _ _ _ _) _).
  destruct (reliable_next 0 w Hrel) as [Hf _].
  pose proof (next_fault_objects w) as Hobj.
  destruct (mem.next_fault w) as [f w1]. cbn [fst snd] in *. subst f.
  rewrite Hobj, Ho. split; reflexivity.
Qed.

End StoreFacts.

Section StoreProperties.



(** X10: [Store] and [Delete] of a key leave every object alone but the
    one named [KeyPrefix] of the key, whether they succeed or fail. *)
Theorem Store_Delete_touch_one_object (s3 : S3) (ctx : Context) (key : string)
  (value : bytes) (w : mem.World) (other : string * string) :
  other <> (Bucket s3, KeyPrefix s3 key) ->
  mem.objects (fst (run mem.client (Store s3 ctx key value) w)) !! other
  = mem.objects w !! other
  /\ mem.objects (fst (run mem.client (Delete s3 ctx key) w)) !! other
     = mem.objects w !! other.
Proof.
  intros Hother. split.
  - pose proof (mem_Store_objects s3 ctx key value w) as H. cbv zeta in H.
    destruct (snd (run mem.client (Store s3 ctx key value) w)).
    + now rewrite H.
    + destruct H as (o & _ & ->). apply lookup_insert_ne. congruence.
  - destruct (mem_Delete_objects s3 ctx key w) as [-> | ->]; [reflexivity |].
    apply lookup_delete_ne. congruence.
Qed.

Lemma Store_Delete_touch_one_object_witness :
  ("my-cert-bucket", "ssl/example.com/cert.pem")
  <> (Bucket example_s3, KeyPrefix example_s3 "example.com/key.pem")
  /\ mem.objects
       (fst (run mem.client
               (Delete example_s3 Background "example.com/key.pem") holding))
       !! ("my-cert-bucket", "ssl/example.com/cert.pem")
     = mem.objects holding !! ("my-cert-bucket", "ssl/example.com/cert.pem").
Proof.
  assert (H : ("my-cert-bucket", "ssl/example.com/cert.pem")
              <> (Bucket example_s3,
                  KeyPrefix example_s3 "example.com/key.pem"))
    by (vm_compute; congruence).
  split; [exact H |].
  exact (proj2 (Store_Delete_touch_one_object example_s3 Background
                  "example.com/key.pem" pem holding
                  ("my-cert-bucket", "ssl/example.com/cert.pem") H)).
Defined.

(** X11: after a [Store] that returned nil, and whatever requests follow
    that neither overwrite nor delete the object, [Exists] of the key is
    true and [Stat] of the key returns a nil error with the size of the
    stored value and, as its key, the key under which the store holds the
    object; [IsTerminal] says whether that key ends in a slash. *)
Theorem Store_then_Stat (s3 : S3) (ctx ctx' : Context) (key : string)
  (value : bytes) (between : list operation) (w : mem.World) :
  let stored := run mem.client (Store s3 ctx key value) w in
  let later := fst (run mem.client (operate_all s3 between) (fst stored)) in
  snd stored = None ->
  forallb (fun op => negb (writes_to s3 (KeyPrefix s3 key) op)) between = true ->
  mem.reliable 1 later ->
  let stat := snd (run mem.client (Stat s3 ctx' key) later) in
  snd stat = None
  /\ certmagic.Key (fst stat) = KeyPrefix s3 key
  /\ certmagic.Size (fst stat) = Z.of_nat (List.length value)
  /\ certmagic.IsTerminal (fst stat) = strings.HasSuffix (KeyPrefix s3 key) "/"
  /\ snd (run mem.client (Exists s3 ctx' key) later) = true.
Proof.
  intros stored later Hstored Hbetween Hreliable.
  pose proof (mem_Store_objects s3 ctx key value w) as H. cbv zeta in H.
  fold stored in H. rewrite Hstored in H. destruct H as (o & Hvalue & Hobjects).
  assert (Ho : mem.objects later !! (Bucket s3, KeyPrefix s3 key) = Some o).
  { unfold later. rewrite mem_operate_all_keeps by exact Hbetween.
    rewrite Hobjects. apply lookup_insert_eq. }
  destruct (mem_Stat_present s3 ctx' key later o Hreliable Ho) as [HS HE].
  cbv zeta. rewrite HS, HE, Hvalue. repeat split.
Qed.

Lemma Store_then_Stat_witness :
  snd (run mem.client
         (Store example_s3 Background "example.com/cert.pem" pem) mem.empty)
  = None
  /\ certmagic.Size
       (fst (snd (run mem.client
                    (Stat example_s3 Background "example.com/cert.pem")
                    (fst (run mem.client (operate_all example_s3 [])
                            (fst (run mem.client
                                    (Store example_s3 Background
                                       "example.com/cert.pem" pem)
                                    mem.empty)))))))
     = 4%Z.
Proof.
  split; [reflexivity |].
  destruct (Store_then_Stat example_s3 Background Background
              "example.com/cert.pem" pem [] mem.empty eq_refl eq_refl)
    as (_ & _ & Hsize & _).
  - unfold mem.reliable. vm_compute. constructor.
  - exact Hsize.
Defined.

End StoreProperties.

Section ListingFacts.

Lemma insert_sorted_In (k x : string) (ks : list string) :
  In x (mem.insert_sorted k ks) <-> x = k \/ In x ks.
Proof.
  induction ks as [|k' ks IH]; simpl.
  - intuition congruence.
  - destruct (String.eqb_spec k k') as [-> | Hne].
    + simpl. intuition congruence.
    + destruct (String.leb k k'); simpl; [intuition congruence |].
      rewrite IH. intuition congruence.
Qed.

(** What a recursive listing of the in-memory store names. *)
Lemma listing_names (bucketName prefix : string) (w : mem.World) (n : string) :
  In n (map minio.Key
          (mem.listing bucketName
             {| minio.Prefix := prefix; minio.Recursive := true |} w))
  <-> is_Some (mem.objects w !! (bucketName, n))
      /\ strings.HasPrefix n prefix = true.
Proof.
  unfold mem.listing. cbn [minio.Prefix minio.Recursive].
  rewrite map_map.
  rewrite (map_ext _ (fun n => n)), map_id.
  2:{ intros a. now destruct (mem.objects w !! (bucketName, a)). }
  assert (Hlist : forall l : list (string * string * mem.StoredObject),
             In n (fold_right
                     (fun (entry : string * string * mem.StoredObject) acc =>
                        let '(b, n0, _) := entry in
                        if String.eqb b bucketName
                           && strings.HasPrefix n0 prefix
                        then mem.insert_sorted
                               (mem.listed_name prefix true n0) acc
                        else acc) [] l)
             <-> (exists o, In (bucketName, n, o) l)
                 /\ strings.HasPrefix n prefix = true).
  { induction l as [|[[b n0] o] l IH]; simpl.
    - split; [tauto | intros [[o []] _]].
    - destruct (String.eqb_spec b bucketName) as [-> | Hb]; simpl.
      + destruct (strings.HasPrefix n0 prefix) eqn:Hp.
        * rewrite insert_sorted_In, IH. unfold mem.listed_name. split.
          -- intros [-> | [[o' Ho'] Hn]].
             ++ split; [exists o; left; reflexivity | exact Hp].
             ++ split; [exists o'; right; exact Ho' | exact Hn].
          -- intros [[o' [Heq | Hin]] Hn].
             ++ left. congruence.
             ++ right. split; [exists o'; exact Hin | exact Hn].
        * rewrite IH. split.
          -- intros [[o' Ho'] Hn].
             split; [exists o'; right; exact Ho' | exact Hn].
          -- intros [[o' [Heq | Hin]] Hn]; [congruence |].
             split; [exists o'; exact Hin | exact Hn].
      + rewrite IH. split.
        * intros [[o' Ho'] Hn].
          split; [exists o'; right; exact Ho' | exact Hn].
        * intros [[o' [Heq | Hin]] Hn]; [congruence |].
          split; [exists o'; exact Hin | exact Hn]. }
  rewrite Hlist. split.
  - intros [[o Ho] Hn]. split; [| exact Hn]. exists o.
    apply elem_of_map_to_list. now apply list_elem_of_In.
  - intros [[o Ho] Hn]. split; [| exact Hn]. exists o.
    apply list_elem_of_In. now apply elem_of_map_to_list.
Qed.

End ListingFacts.

Section ListProperties.

(** The keys a recursive [List] returns from the in-memory store when the
    store answers. *)
Lemma mem_List_keys (s3 : S3) (ctx : Context) (prefix : string)
  (w : mem.World) :
  mem.reliable 1 w ->
  snd (run mem.client (List s3 ctx prefix true) w)
  = (map (CutKeyPrefix s3)
       (map minio.Key
          (mem.listing (Bucket s3)
             {| minio.Prefix := KeyPrefix s3 prefix; minio.Recursive := true |}
             w)),
     None).
Proof.
  intros Hrel. pose proof (run_List mem.client s3 ctx prefix true w) as H.
  cbv zeta in H. rewrite H. clear H. cbn [snd].
  generalize (KeyPrefix s3 prefix) as pk. intros pk.
  simpl (mem.client (ListObjects _ _ _) _).
  destruct (reliable_next 0 w Hrel) as [Hf _].
  pose proof (next_fault_objects w) as Ho.
  destruct (mem.next_fault w) as [f w1]. cbn [fst snd] in *. subst f.
  cbn [snd minio.chan_len minio.chan_items repeat app].
  rewrite map_map. unfold mem.listing. now rewrite Ho.
Qed.

(** X12: on a store that answers, a recursive [List] returns exactly the
    names of the stored objects that start with [KeyPrefix] of the given
    prefix, each with the configured prefix cut off its front, and a nil
    error. *)
Theorem List_recursive_exact (s3 : S3) (ctx : Context) (prefix : string)
  (w : mem.World) (key : string) :
  mem.reliable 1 w ->
  let listed := snd (run mem.client (List s3 ctx prefix true) w) in
  snd listed = None
  /\ (In key (fst listed)
      <-> exists name,
            is_Some (mem.objects w !! (Bucket s3, name))
            /\ strings.HasPrefix name (KeyPrefix s3 prefix) = true
            /\ key = CutKeyPrefix s3 name).
Proof.
  intros Hrel. cbv zeta. rewrite (mem_List_keys s3 ctx prefix w Hrel).
  cbn [fst snd]. split; [reflexivity |].
  rewrite in_map_iff. split.
  - intros (name & <- & Hin). apply listing_names in Hin as [Hsome Hp].
    exists name. auto.
  - intros (name & Hsome & Hp & ->). exists name. split; [reflexivity |].
    apply listing_names. auto.
Qed.

Lemma List_recursive_exact_witness :
  mem.reliable 1 holding
  /\ In "/example.com/cert.pem"
       (fst (snd (run mem.client (List example_s3 Background "example.com" true)
                    holding))).
Proof.
  assert (Hrel : mem.reliable 1 holding) by (vm_compute; constructor).
  split; [exact Hrel |].
  apply (proj2 (List_recursive_exact example_s3 Background "example.com"
                  holding "/example.com/cert.pem" Hrel)).
  exists "ssl/example.com/cert.pem". repeat split.
  vm_compute. eexists. reflexivity.
Defined.

(** X13: after a [Store] that returned nil, and whatever requests follow
    that neither overwrite nor delete the object, a recursive [List] of
    any prefix whose prefixed form starts the prefixed key returns the
    key as [CutKeyPrefix] gives it back, when the store answers. *)
Theorem Store_then_List (s3 : S3) (ctx ctx' : Context) (key prefix : string)
  (value : bytes) (between : list operation) (w : mem.World) :
  let stored := run mem.client (Store s3 ctx key value) w in
  let later := fst (run mem.client (operate_all s3 between) (fst stored)) in
  snd stored = None ->
  forallb (fun op => negb (writes_to s3 (KeyPrefix s3 key) op)) between = true ->
  mem.reliable 1 later ->
  strings.HasPrefix (KeyPrefix s3 key) (KeyPrefix s3 prefix) = true ->
  In (CutKeyPrefix s3 (KeyPrefix s3 key))
    (fst (snd (run mem.client (List s3 ctx' prefix true) later))).
Proof.
  intros stored later Hstored Hbetween Hreliable Hprefix.
  pose proof (mem_Store_objects s3 ctx key value w) as H. cbv zeta in H.
  fold stored in H. rewrite Hstored in H. destruct H as (o & Hvalue & Hobjects).
  assert (Ho : mem.objects later !! (Bucket s3, KeyPrefix s3 key) = Some o).
  { unfold later. rewrite mem_operate_all_keeps by exact Hbetween.
    rewrite Hobjects. apply lookup_insert_eq. }
  rewrite (mem_List_keys s3 ctx' prefix later Hreliable). cbn [fst].
  apply in_map. apply listing_names. split; [exists o; exact Ho | exact Hprefix].
Qed.

Lemma Store_then_List_witness :
  snd (run mem.client
         (Store example_s3 Background "example.com/cert.pem" pem) mem.empty)
  = None
  /\ strings.HasPrefix (KeyPrefix example_s3 "example.com/cert.pem")
       (KeyPrefix example_s3 "") = true
  /\ In "/example.com/cert.pem"
       (fst (snd (run mem.client (List example_s3 Background "" true)
                    (fst (run mem.client (operate_all example_s3 [])
                            (fst (run mem.client
                                    (Store example_s3 Background
                                       "example.com/cert.pem" pem)
                                    mem.empty))))))).
Proof.
  split; [reflexivity |]. split; [reflexivity |].
  apply (Store_then_List example_s3 Background Background
           "example.com/cert.pem" "" pem [] mem.empty eq_refl eq_refl).
  - unfold mem.reliable. vm_compute. constructor.
  - reflexivity.
Defined.

End ListProperties.

Section AnyClientProperties.

Context {W : Type}.
Variable client : forall c : call, W -> W * response c.

(** X14: [List] returns [len(objects)] empty strings followed by one key
    for every value received from the channel, in the order received and
    whatever the value's [Err], each the value's key with the configured
    prefix cut off; its error is nil. *)
Theorem List_keys_in_order (s3 : S3) (ctx : Context) (prefix : string)
  (recursive : bool) (w : W) :
  let objects :=
    snd (client (ListObjects ctx (Bucket s3)
                   {| minio.Prefix := KeyPrefix s3 prefix;
                      minio.Recursive := recursive |}) w) in
  snd (run client (List s3 ctx prefix recursive) w)
  = ((repeat "" (minio.chan_len objects)
      ++ map (fun object => CutKeyPrefix s3 (minio.Key object))
           (minio.chan_items objects))%list,
     None).
Proof.
  pose proof (run_List client s3 ctx prefix recursive w) as H.
  cbv zeta in H. cbv zeta. now rewrite H.
Qed.

(** X15: the calls of [Load] are those of [Exists] and, only when the
    pre-check succeeded, a log line and one [GetObject]; an object that
    [GetObject] hands out is read to its end once and then closed once,
    and no object is read or closed otherwise. *)
Theorem Load_fetches_and_closes (s3 : S3) (ctx : Context) (key : string)
  (w : W) :
  let pre := run client (Exists s3 ctx key) w in
  let debug := LogDebug (Sprintf "Load key: %s" [ArgS (KeyPrefix s3 key)]) in
  let get :=
    GetObject ctx (Bucket s3) (KeyPrefix s3 key) minio.mkGetObjectOptions in
  trace client (Load s3 ctx key) w
  = (trace client (Exists s3 ctx key) w
     ++ if snd pre then
          debug :: get
          :: match snd (client get (fst (client debug (fst pre)))) with
             | inl object => [ReadAll object; Close object]
             | inr _ => []
             end
        else [])%list.
Proof.
  unfold Load. cbv zeta. rewrite trace_bind. f_equal.
  generalize (KeyPrefix s3 key) as pk. intros pk.
  destruct (run client (Exists s3 ctx key) w) as [w0 [|]]; cbn [fst snd negb];
    [| reflexivity].
  simpl. destruct (client (LogDebug _) w0) as [w1 []]. simpl.
  destruct (client (GetObject _ _ _ _) w1) as [w2 [object | err]]; simpl;
    [| reflexivity].
  destruct (client (ReadAll object) w2) as [w3 result]. simpl.
  destruct (client (Close object) w3) as [w4 closed]. reflexivity.
Qed.

End AnyClientProperties.

Section KeyProperties.

Import path.

Lemma Join_slash_key (ps es : list string) :
  elements ps = true -> elements es = true ->
  Join [strings.Join ps "/"; "/" ++ strings.Join es "/"]
  = strings.Join ps "/" ++ "/" ++ strings.Join es "/".
Proof.
  intros Hps Hes.
  pose proof (Join_elements_slash ps es Hps Hes) as H.
  destruct (Join_first ps Hps) as (c & s & Hj & Hc).
  rewrite Join_pair in H;
    [| rewrite Hj; discriminate | now apply Join_nonempty].
  rewrite Join_pair; [| now apply Join_nonempty | discriminate].
  rewrite !append_assoc in H. rewrite <- H. reflexivity.
Qed.

(** The operations read the key through [KeyPrefix] only. *)
Lemma same_KeyPrefix_same_programs (s3 : S3) (ctx : Context) (k1 k2 : string)
  (value : bytes) :
  KeyPrefix s3 k1 = KeyPrefix s3 k2 ->
  Store s3 ctx k1 value = Store s3 ctx k2 value
  /\ Load s3 ctx k1 = Load s3 ctx k2
  /\ Delete s3 ctx k1 = Delete s3 ctx k2
  /\ Exists s3 ctx k1 = Exists s3 ctx k2
  /\ Stat s3 ctx k1 = Stat s3 ctx k2.
Proof.
  intros H. unfold Store, Load, Delete, Exists, Stat. rewrite H.
  repeat split.
Qed.

(** X16: with a clean configured prefix, the key that [List] returns for
    the object of a clean key is that key with a slash in front, and given
    back to the adapter it names the same object: [Load], [Stat],
    [Exists], [Delete] and [Store] of the returned key are those of the
    key itself. *)
Theorem listed_key_names_same_object (s3 : S3) (ctx : Context)
  (ps es : list string) (value : bytes) :
  elements ps = true ->
  elements es = true ->
  Prefix s3 = strings.Join ps "/" ->
  let key := strings.Join es "/" in
  let listed := CutKeyPrefix s3 (KeyPrefix s3 key) in
  listed = "/" ++ key
  /\ KeyPrefix s3 listed = KeyPrefix s3 key
  /\ Load s3 ctx listed = Load s3 ctx key
  /\ Stat s3 ctx listed = Stat s3 ctx key
  /\ Exists s3 ctx listed = Exists s3 ctx key
  /\ Delete s3 ctx listed = Delete s3 ctx key
  /\ Store s3 ctx listed value = Store s3 ctx key value.
Proof.
  intros Hps Hes Hp. cbv zeta.
  assert (Hlisted : CutKeyPrefix s3 (KeyPrefix s3 (strings.Join es "/"))
                    = "/" ++ strings.Join es "/").
  { unfold CutKeyPrefix, KeyPrefix. rewrite Hp.
    rewrite (Join_elements ps es Hps Hes), CutPrefix_append. reflexivity. }
  assert (Hsame : KeyPrefix s3 ("/" ++ strings.Join es "/")
                  = KeyPrefix s3 (strings.Join es "/")).
  { unfold KeyPrefix. rewrite Hp.
    now rewrite (Join_slash_key ps es Hps Hes), (Join_elements ps es Hps Hes). }
  rewrite Hlisted. split; [reflexivity |]. split; [exact Hsame |].
  destruct (same_KeyPrefix_same_programs s3 ctx _ _ value Hsame)
    as (HStore & HLoad & HDelete & HExists & HStat).
  auto.
Qed.

Lemma listed_key_names_same_object_witness :
  elements ["ssl"] = true
  /\ elements ["example.com"; "cert.pem"] = true
  /\ CutKeyPrefix example_s3 (KeyPrefix example_s3 "example.com/cert.pem")
     = "/example.com/cert.pem"
  /\ Load example_s3 Background
       (CutKeyPrefix example_s3 (KeyPrefix example_s3 "example.com/cert.pem"))
     = Load example_s3 Background "example.com/cert.pem".
Proof.
  destruct (listed_key_names_same_object example_s3 Background ["ssl"]
              ["example.com"; "cert.pem"] pem eq_refl eq_refl eq_refl)
    as (Hlisted & _ & HLoad & _).
  split; [reflexivity |]. split; [reflexivity |].
  split; [exact Hlisted | exact HLoad].
Defined.

(** The characters of an element are no slashes. *)
Lemma no_slash_index (e : string) (m : nat) :
  no_slash e = true -> (m < String.length e)%nat ->
  Ascii.eqb (index e m) "/" = false.
Proof.
  unfold index. revert m. induction e as [|c e IH]; intros m He Hm.
  - simpl in Hm. lia.
  - simpl in He. apply andb_true_iff in He as [Hc He].
    apply negb_true_iff in Hc. destruct m as [|m]; simpl; [exact Hc |].
    apply IH; [exact He | simpl in Hm; lia].
Qed.

Lemma index_append_r (a b : string) (m : nat) :
  index (a ++ b) (String.length a + m) = index b m.
Proof.
  unfold index. rewrite Nat.add_comm, <- append_correct2. reflexivity.
Qed.

Lemma substring_append (a b : string) :
  substring 0 (String.length a) (a ++ b) = a.
Proof.
  induction a as [|c a IH].
  - rewrite append_nil_l. now destruct b.
  - rewrite append_cons. simpl. now rewrite IH.
Qed.

(** [backtrack] walks over the last element of the buffer. *)
Lemma backtrack_element (pre e : string) (m : nat) :
  no_slash e = true -> (m < String.length e)%nat ->
  backtrack (pre ++ e) 0 (String.length pre + m)
  = match String.length pre with
    | O => O
    | S j => backtrack (pre ++ e) 0 j
    end.
Proof.
  intros He. induction m as [|m IH]; intros Hm.
  - rewrite Nat.add_0_r. destruct (String.length pre) as [|j] eqn:Hlen;
      [reflexivity |].
    assert (Hi : Ascii.eqb (index (pre ++ e) (S j)) "/" = false).
    { rewrite <- Hlen, <- (Nat.add_0_r (String.length pre)), index_append_r.
      exact (no_slash_index e 0 He Hm). }
    cbn [backtrack]. rewrite Hi. reflexivity.
  - rewrite Nat.add_succ_r.
    assert (Hi : Ascii.eqb (index (pre ++ e) (S (String.length pre + m))) "/"
                 = false).
    { rewrite <- Nat.add_succ_r, index_append_r.
      exact (no_slash_index e (S m) He Hm). }
    cbn [backtrack]. rewrite Hi. cbn [negb andb Nat.ltb Nat.leb].
    apply IH. lia.
Qed.

Lemma backtrack_slash (q rest : string) :
  q <> "" ->
  backtrack (q ++ String "/" rest) 0 (String.length q) = String.length q.
Proof.
  intros Hq. destruct (String.length q) as [|j] eqn:Hlen.
  - destruct q; [congruence | discriminate].
  - assert (Hi : index (q ++ String "/" rest) (S j) = "/"%char).
    { rewrite <- Hlen, <- (Nat.add_0_r (String.length q)), index_append_r.
      reflexivity. }
    cbn [backtrack]. rewrite Hi. reflexivity.
Qed.

Lemma Join_snoc (qs : list string) (e : string) :
  qs <> [] ->
  strings.Join (qs ++ [e]) "/" = strings.Join qs "/" ++ "/" ++ e.
Proof.
  induction qs as [|q qs IH]; [congruence |]. intros _.
  destruct qs as [|q2 qs]; [reflexivity |].
  change (strings.Join ((q :: q2 :: qs) ++ [e]) "/")
    with (q ++ "/" ++ strings.Join ((q2 :: qs) ++ [e]) "/").
  rewrite IH by discriminate.
  change (strings.Join (q :: q2 :: qs) "/")
    with (q ++ "/" ++ strings.Join (q2 :: qs) "/").
  now rewrite !append_assoc.
Qed.

Lemma elements_app (qs : list string) (e : string) :
  elements (qs ++ [e]) = true ->
  is_element e = true /\ (qs <> [] -> elements qs = true).
Proof.
  intros H. apply forallb_elements in H as [_ Hall].
  rewrite forallb_app in Hall. apply andb_true_iff in Hall as [Hqs He].
  simpl in He. rewrite andb_true_r in He. split; [exact He |].
  intros Hne. unfold elements. rewrite Hqs, andb_true_r.
  destruct qs; [congruence | reflexivity].
Qed.

(** The buffer after [..] has removed the last element of a clean path. *)
Lemma dotdot_element_elements (qs : list string) (e : string) :
  elements (qs ++ [e]) = true ->
  dotdot_element false (strings.Join (qs ++ [e]) "/") 0
  = (strings.Join qs "/", 0%nat).
Proof.
  intros H. destruct (elements_app qs e H) as [He Hqs].
  apply is_element_inv in He as (Hne & Hns & _).
  unfold dotdot_element.
  assert (Hlen : (0 < String.length e)%nat)
    by (destruct e; [congruence | simpl; lia]).
  destruct qs as [|q qs].
  - cbn [app strings.Join].
    destruct (0 <? String.length e)%nat eqn:Hlt;
      [| apply Nat.ltb_ge in Hlt; lia].
    pose proof (backtrack_element "" e (String.length e - 1) Hns) as Hb.
    rewrite append_nil_l in Hb. cbn [String.length Nat.add] in Hb.
    rewrite Hb by lia. now destruct e.
  - rewrite Join_snoc by discriminate.
    set (Q := strings.Join (q :: qs) "/").
    assert (HQ : Q <> "") by (apply Join_nonempty, Hqs; discriminate).
    rewrite <- append_assoc.
    rewrite length_append.
    destruct (0 <? String.length (Q ++ "/") + String.length e)%nat eqn:Hlt;
      [| apply Nat.ltb_ge in Hlt; lia].
    replace (String.length (Q ++ "/") + String.length e - 1)%nat
      with (String.length (Q ++ "/") + (String.length e - 1))%nat by lia.
    rewrite backtrack_element by (exact Hns || lia).
    rewrite length_append. cbn [String.length].
    rewrite Nat.add_1_r.
    rewrite append_assoc. change ("/" ++ e) with (String "/" e).
    rewrite backtrack_slash by exact HQ.
    now rewrite substring_append.
Qed.

(** X17: a key that starts with [../] leaves the configured prefix: with
    a clean prefix, [KeyPrefix] of [../] and a clean key is what the
    prefix without its last element gives for that key, and with a prefix
    of one element it is the key alone. *)
Theorem dotdot_key_leaves_prefix (s3 : S3) (qs es : list string) (e : string) :
  elements (qs ++ [e]) = true ->
  elements es = true ->
  Prefix s3 = strings.Join (qs ++ [e]) "/" ->
  KeyPrefix s3 ("../" ++ strings.Join es "/")
  = KeyPrefix (set_Prefix (strings.Join qs "/") s3) (strings.Join es "/")
  /\ (qs = [] ->
      KeyPrefix s3 ("../" ++ strings.Join es "/") = strings.Join es "/").
Proof.
  intros Hps Hes Hp.
  assert (Hkey : KeyPrefix s3 ("../" ++ strings.Join es "/")
                 = add_slash false (strings.Join qs "/")
                   ++ strings.Join es "/").
  { unfold KeyPrefix. rewrite Hp.
    destruct (Join_first _ Hps) as (c & s & Hj & Hc).
    rewrite Join_pair; [| rewrite Hj; discriminate | discriminate].
    pose proof (clean_loop_elements false _ Hps
                  (String "/" ("../" ++ strings.Join es "/")) "" 0 eq_refl)
      as Hl.
    cbv beta iota in Hl. change (add_slash false "") with "" in Hl.
    rewrite append_nil_l in Hl.
    unfold Clean. rewrite Hj in *. rewrite append_cons, Hc, <- append_cons.
    rewrite Hl. rewrite <- Hj.
    change ("../" ++ strings.Join es "/")
      with (String "." (String "." (String "/" (strings.Join es "/")))).
    rewrite clean_loop_cons. cbn [Ascii.eqb Bool.eqb at_end andb strings.drop].
    rewrite (dotdot_element_elements qs e Hps).
    rewrite clean_loop_cons. cbn [Ascii.eqb Bool.eqb].
    pose proof (clean_loop_elements false es Hes "" (strings.Join qs "/") 0
                  eq_refl) as Hk.
    rewrite append_nil_r in Hk. rewrite Hk.
    destruct (Join_first es Hes) as (d & t & Hd & _).
    rewrite length_append, Hd. cbn [String.length].
    rewrite Nat.add_succ_r. reflexivity. }
  split.
  - rewrite Hkey. unfold KeyPrefix. cbn [Prefix set_Prefix].
    destruct qs as [|q qs].
    + cbn [strings.Join]. rewrite Join_no_prefix by now apply Join_nonempty.
      now rewrite Clean_elements.
    + destruct (elements_app (q :: qs) e Hps) as [_ Hqs].
      rewrite Join_elements by (exact Hes || apply Hqs; discriminate).
      destruct (Join_first (q :: qs) (Hqs ltac:(discriminate)))
        as (c & s & Hj & _).
      rewrite Hj. unfold add_slash, buf_append. cbn.
      now rewrite append_assoc.
  - intros ->. rewrite Hkey. reflexivity.
Qed.

Lemma dotdot_key_leaves_prefix_witness :
  elements ([] ++ ["ssl"]) = true
  /\ elements ["other"; "cert.pem"] = true
  /\ KeyPrefix example_s3 "../other/cert.pem" = "other/cert.pem".
Proof.
  split; [reflexivity |]. split; [reflexivity |].
  exact (proj2 (dotdot_key_leaves_prefix example_s3 [] ["other"; "cert.pem"]
                  "ssl" eq_refl eq_refl eq_refl) eq_refl).
Defined.

End KeyProperties.

Section ConfigurationProperties.

Variable url_Parse : string -> url.URL + string.
Context {Client : Type}.
Variable minio_New : string -> Options -> Client + string.

(** X8: when the module is unmarshalled from its Caddyfile block and then
    provisioned, both without error, every string field holds the last
    argument of its directive when that is not empty, and its environment
    variable otherwise; a flag is on when the last argument of its
    directive or else its environment variable parses as true. *)
Theorem Caddyfile_then_environment (d : Dispenser) (env : gmap string string) :
  let unmarshalled := UnmarshalCaddyfile url_Parse d zero_S3 in
  let provisioned := Provision url_Parse minio_New env (fst unmarshalled) in
  snd unmarshalled = None ->
  provisioned_err provisioned = None ->
  let s3 := provisioned_s3 provisioned in
  let field (key name : string) :=
    if String.eqb (last_arg key d "") "" then Getenv env name
    else last_arg key d "" in
  let flag (key name : string) :=
    last_flag key d false || fst (strconv.ParseBool (Getenv env name)) in
  Host s3 = field "host" "S3_HOST"
  /\ Bucket s3 = field "bucket" "S3_BUCKET"
  /\ AccessID s3 = field "access_id" "S3_ACCESS_ID"
  /\ SecretKey s3 = field "secret_key" "S3_SECRET_KEY"
  /\ Prefix s3 = field "prefix" "S3_PREFIX"
  /\ Insecure s3 = flag "insecure" "S3_INSECURE"
  /\ UseIamProvider s3 = flag "use_iam_provider" "S3_USE_IAM_PROVIDER".
Proof.
  intros unmarshalled provisioned Hun Hpro.
  pose proof (UnmarshalCaddyfile_fields url_Parse d zero_S3 Hun) as Hfields.
  cbv zeta in Hfields. fold unmarshalled in Hfields.
  cbn [Host Bucket AccessID SecretKey Prefix Insecure UseIamProvider zero_S3]
    in Hfields.
  destruct Hfields as (Hh & Hb & Ha & Hs & Hp & Hi & Hu).
  pose proof (Provision_eq url_Parse minio_New env (fst unmarshalled)) as H.
  cbv zeta in H. fold provisioned in H.
  destruct (validateHost _ _); [congruence |].
  destruct (String.eqb _ ""); [congruence |].
  destruct (_ && _); [congruence |].
  destruct (_ && _); [congruence |].
  destruct (minio_New _ _) as [client | err]; [| destruct H; congruence].
  cbv zeta. rewrite H. cbn [provisioned_s3]. unfold resolve.
  cbn [Host Bucket AccessID SecretKey Prefix Insecure UseIamProvider].
  rewrite Hh, Hb, Ha, Hs, Hp, Hi, Hu. repeat split.
Qed.

End ConfigurationProperties.

Section ConfigurationWitnesses.

Lemma Provision_fills_in_environment_witness :
  provisioned_err
    (Provision instances.parse instances.connect instances.environment
       (set_Host "s3.example.com"
          (set_AccessID "Access ID" (set_SecretKey "Secret Key" zero_S3))))
  = None
  /\ Bucket
       (provisioned_s3
          (Provision instances.parse instances.connect instances.environment
             (set_Host "s3.example.com"
                (set_AccessID "Access ID"
                   (set_SecretKey "Secret Key" zero_S3)))))
     = Getenv instances.environment "S3_BUCKET".
Proof.
  split; [reflexivity |].
  destruct (Provision_fills_in_environment instances.parse instances.connect
              instances.environment
              (set_Host "s3.example.com"
                 (set_AccessID "Access ID" (set_SecretKey "Secret Key" zero_S3)))
              eq_refl) as (_ & Hbucket & _).
  exact Hbucket.
Defined.

Lemma Provision_client_witness :
  provisioned_err
    (Provision instances.parse instances.connect instances.environment
       (set_Host "s3.example.com" (set_UseIamProvider true zero_S3)))
  = None
  /\ provisioned_client
       (Provision instances.parse instances.connect instances.environment
          (set_Host "s3.example.com" (set_UseIamProvider true zero_S3)))
     = Some ("s3.example.com",
             {| Creds := credentials.NewIAM ""; Secure := true |}).
Proof.
  split; [reflexivity |].
  destruct (Provision_client instances.parse instances.connect
              instances.environment
              (set_Host "s3.example.com" (set_UseIamProvider true zero_S3))
              eq_refl) as (client & Hclient & Hnew).
  rewrite Hclient. f_equal. vm_compute in Hnew. congruence.
Defined.

Lemma Provision_again_witness :
  provisioned_err
    (Provision instances.parse instances.connect instances.environment
       (set_Host "s3.example.com" (set_UseIamProvider true zero_S3)))
  = None
  /\ Provision instances.parse instances.connect instances.environment
       (provisioned_s3
          (Provision instances.parse instances.connect instances.environment
             (set_Host "s3.example.com" (set_UseIamProvider true zero_S3))))
     = Provision instances.parse instances.connect instances.environment
         (set_Host "s3.example.com" (set_UseIamProvider true zero_S3)).
Proof.
  split; [reflexivity |].
  exact (Provision_again instances.parse instances.connect
           instances.environment
           (set_Host "s3.example.com" (set_UseIamProvider true zero_S3))
           eq_refl).
Defined.

Lemma UnmarshalCaddyfile_last_wins_witness :
  snd (UnmarshalCaddyfile instances.parse instances.caddyfile_partial zero_S3)
  = None
  /\ Bucket
       (fst (UnmarshalCaddyfile instances.parse instances.caddyfile_partial
               zero_S3))
     = "my-cert-bucket".
Proof.
  split; [reflexivity |].
  destruct (UnmarshalCaddyfile_last_wins instances.parse
              instances.caddyfile_partial zero_S3 eq_refl)
    as (_ & Hbucket & _).
  exact Hbucket.
Defined.

Lemma Caddyfile_then_environment_witness :
  snd (UnmarshalCaddyfile instances.parse instances.caddyfile_partial zero_S3)
  = None
  /\ provisioned_err
       (Provision instances.parse instances.connect instances.environment
          (fst (UnmarshalCaddyfile instances.parse
                  instances.caddyfile_partial zero_S3)))
     = None
  /\ Prefix
       (provisioned_s3
          (Provision instances.parse instances.connect instances.environment
             (fst (UnmarshalCaddyfile instances.parse
                     instances.caddyfile_partial zero_S3))))
     = "env-prefix".
Proof.
  split; [reflexivity |]. split; [reflexivity |].
  destruct (Caddyfile_then_environment instances.parse instances.connect
              instances.caddyfile_partial instances.environment
              eq_refl eq_refl) as (_ & _ & _ & _ & Hprefix & _).
  exact Hprefix.
Defined.

End ConfigurationWitnesses.

(** * [path.Clean] never leaves a trailing slash *)

Section TrailingSlash.

Import path.

Lemma ends_in_slash_cons (c d : ascii) (s : string) :
  ends_in_slash (String c (String d s)) = ends_in_slash (String d s).
Proof. reflexivity. Qed.

Lemma no_double_slash_cons (a b : ascii) (s : string) :
  no_double_slash (String a (String b s))
  = negb (Ascii.eqb a "/" && Ascii.eqb b "/") && no_double_slash (String b s).
Proof. reflexivity. Qed.

Lemma ends_in_slash_append (s : string) (c : ascii) :
  ends_in_slash (s ++ String c "") = Ascii.eqb c "/".
Proof.
  induction s as [|a s IH]; [reflexivity |].
  rewrite append_cons. destruct s as [|b s]; [exact IH |].
  rewrite append_cons in *. rewrite ends_in_slash_cons. exact IH.
Qed.

Lemma HasSuffix_slash (s : string) :
  strings.HasSuffix s "/" = ends_in_slash s.
Proof.
  unfold strings.HasSuffix. cbn [String.length].
  induction s as [|a s IH]; [reflexivity |].
  destruct s as [|b s].
  - cbn [String.length Nat.leb Nat.sub strings.drop andb String.eqb
         ends_in_slash].
    now destruct (Ascii.eqb a "/").
  - rewrite ends_in_slash_cons, <- IH.
    cbn [String.length Nat.leb Nat.sub strings.drop]. rewrite Nat.sub_0_r.
    reflexivity.
Qed.

Lemma no_double_slash_append (s : string) (c : ascii) :
  no_double_slash (s ++ String c "")
  = no_double_slash s && negb (ends_in_slash s && Ascii.eqb c "/").
Proof.
  induction s as [|a s IH]; [reflexivity |].
  destruct s as [|b s].
  - rewrite append_cons, append_nil_l.
    cbn [no_double_slash ends_in_slash andb].
    now destruct (Ascii.eqb a "/"), (Ascii.eqb c "/").
  - rewrite !append_cons in *. rewrite ends_in_slash_cons.
    rewrite !no_double_slash_cons, IH, andb_assoc. reflexivity.
Qed.

Lemma substring_all (s : string) : substring 0 (String.length s) s = s.
Proof. induction s as [|a s IH]; [reflexivity |]. simpl. now rewrite IH. Qed.

Lemma substring_append_l (n : nat) (s t : string) :
  (n <= String.length s)%nat -> substring 0 n (s ++ t) = substring 0 n s.
Proof.
  revert n. induction s as [|a s IH]; intros n Hn.
  - simpl in Hn. assert (n = 0)%nat as -> by lia.
    rewrite append_nil_l. now destruct t.
  - rewrite append_cons. destruct n as [|n]; [reflexivity |].
    simpl in *. rewrite IH by lia. reflexivity.
Qed.

Lemma substring_length (n : nat) (s : string) :
  (n <= String.length s)%nat -> String.length (substring 0 n s) = n.
Proof.
  revert n. induction s as [|a s IH]; intros n Hn.
  - simpl in Hn. assert (n = 0)%nat as -> by lia. reflexivity.
  - destruct n as [|n]; [reflexivity |]. simpl in *. rewrite IH by lia.
    reflexivity.
Qed.

Lemma substring_substring (n m : nat) (s : string) :
  (n <= m)%nat -> substring 0 n (substring 0 m s) = substring 0 n s.
Proof.
  revert n m. induction s as [|a s IH]; intros n m Hnm.
  - destruct n, m; reflexivity.
  - destruct n as [|n]; [now destruct m |].
    destruct m as [|m]; [lia |]. simpl. rewrite IH by lia. reflexivity.
Qed.

Lemma no_double_slash_tail (a : ascii) (s : string) :
  no_double_slash (String a s) = true -> no_double_slash s = true.
Proof.
  destruct s as [|b s]; [reflexivity |]. rewrite no_double_slash_cons.
  now intros [_ H]%andb_true_iff.
Qed.

Lemma no_double_slash_substring (n : nat) (s : string) :
  no_double_slash s = true -> no_double_slash (substring 0 n s) = true.
Proof.
  revert n. induction s as [|a s IH]; intros n Hs.
  - now destruct n.
  - destruct n as [|n]; [reflexivity |].
    cbn [substring]. destruct s as [|b s].
    + now destruct n.
    + destruct n as [|n]; [reflexivity |].
      rewrite no_double_slash_cons in Hs.
      apply andb_true_iff in Hs as [Hab Hs].
      specialize (IH (S n) Hs). cbn [substring] in IH |- *.
      now rewrite no_double_slash_cons, Hab, IH.
Qed.

(** In a buffer without two slashes in a row, what stands before a slash
    does not end in a slash. *)
Lemma before_slash (s : string) (w : nat) :
  no_double_slash s = true ->
  index s w = "/"%char ->
  ends_in_slash (substring 0 w s) = false.
Proof.
  unfold index. revert w. induction s as [|a s IH]; intros w Hs Hw.
  - now destruct w.
  - destruct w as [|w]; [reflexivity |].
    cbn [substring]. cbn [String.get] in Hw.
    destruct s as [|b s]; [now destruct w |].
    destruct w as [|w].
    + cbn [String.get] in Hw. subst b.
      rewrite no_double_slash_cons in Hs.
      apply andb_true_iff in Hs as [Hab _].
      rewrite Ascii.eqb_refl, andb_true_r in Hab.
      cbn [substring ends_in_slash].
      destruct (Ascii.eqb a "/"); [discriminate | reflexivity].
    + apply no_double_slash_tail in Hs.
      specialize (IH (S w) Hs Hw). cbn [substring] in IH |- *.
      rewrite ends_in_slash_cons. exact IH.
Qed.

Lemma backtrack_bounds (out : string) (dotdot w : nat) :
  (dotdot <= w)%nat ->
  let w' := backtrack out dotdot w in
  (dotdot <= w' <= w)%nat /\ (w' = dotdot \/ index out w' = "/"%char).
Proof.
  cbv zeta. induction w as [|w IH]; intros Hw.
  - cbn. split; [lia | left; lia].
  - cbn [backtrack]. destruct (dotdot <? S w)%nat eqn:Hlt; cbn [andb].
    + apply Nat.ltb_lt in Hlt.
      destruct (Ascii.eqb_spec (index out (S w)) "/") as [Heq | Hne];
        cbn [negb].
      * split; [lia | right; exact Heq].
      * destruct (IH ltac:(lia)) as [Hb Hs]. split; [lia | exact Hs].
    + apply Nat.ltb_ge in Hlt. split; [lia | left; lia].
Qed.

Lemma buffer_ok_copying (rooted : bool) (o : string) (dotdot : nat) :
  copying_ok rooted o dotdot -> buffer_ok rooted o dotdot.
Proof. intros (H1 & H2 & H3 & H4). repeat split; auto. Qed.

Lemma copying_ok_append (rooted : bool) (o : string) (dotdot : nat)
  (c : ascii) :
  copying_ok rooted o dotdot -> Ascii.eqb c "/" = false ->
  copying_ok rooted (buf_append o c) dotdot.
Proof.
  intros (H1 & H2 & H3 & H4) Hc. unfold buf_append. repeat split.
  - now rewrite no_double_slash_append, H1, Hc, andb_false_r.
  - now rewrite ends_in_slash_append.
  - rewrite length_append. lia.
  - now rewrite substring_append_l.
Qed.

Lemma copying_ok_start (rooted : bool) (out : string) (dotdot : nat)
  (c : ascii) :
  buffer_ok rooted out dotdot -> Ascii.eqb c "/" = false ->
  copying_ok rooted (buf_append (add_slash rooted out) c) dotdot.
Proof.
  intros (H1 & H2 & H3 & H4) Hc.
  assert (Hadd : no_double_slash (add_slash rooted out) = true
                 /\ exists t, add_slash rooted out = out ++ t).
  { unfold add_slash, buf_append.
    destruct (rooted && negb (String.length out =? 1)%nat
              || negb rooted && negb (String.length out =? 0)%nat) eqn:Hcond;
      [| split; [exact H1 | exists ""; now rewrite append_nil_r]].
    split; [| now exists "/"].
    rewrite no_double_slash_append, H1. cbn [andb].
    destruct H2 as [-> | [-> ->]]; [reflexivity | discriminate Hcond]. }
  destruct Hadd as [Hnd [t Ht]]. unfold buf_append. repeat split.
  - now rewrite no_double_slash_append, Hnd, Hc, andb_false_r.
  - now rewrite ends_in_slash_append.
  - rewrite Ht, !length_append. lia.
  - rewrite Ht, append_assoc. now rewrite substring_append_l.
Qed.

Lemma buffer_ok_dotdot (rooted : bool) (out : string) (dotdot : nat) :
  buffer_ok rooted out dotdot ->
  buffer_ok rooted (fst (dotdot_element rooted out dotdot))
    (snd (dotdot_element rooted out dotdot)).
Proof.
  intros (H1 & H2 & H3 & H4). unfold dotdot_element.
  destruct (dotdot <? String.length out)%nat eqn:Hlt.
  - apply Nat.ltb_lt in Hlt. cbn [fst snd].
    destruct (backtrack_bounds out dotdot (String.length out - 1)
                ltac:(lia)) as [Hb Hs].
    set (w := backtrack out dotdot (String.length out - 1)) in *.
    repeat split.
    + now apply no_double_slash_substring.
    + destruct Hs as [-> | Hs]; [exact H4 |].
      left. now apply before_slash.
    + rewrite substring_length by lia. lia.
    + rewrite substring_substring by lia. exact H4.
  - apply Nat.ltb_ge in Hlt. destruct rooted; cbn [negb fst snd];
      [repeat split; auto |].
    set (out1 := if (0 <? String.length out)%nat then buf_append out "/"
                 else out).
    assert (Hout1 : no_double_slash out1 = true).
    { unfold out1, buf_append. destruct (0 <? String.length out)%nat;
        [| exact H1].
      rewrite no_double_slash_append, H1.
      destruct H2 as [-> | [? _]]; [reflexivity | discriminate]. }
    unfold buf_append. repeat split.
    + rewrite !no_double_slash_append, Hout1. cbn.
      now rewrite !andb_false_r.
    + left. now rewrite ends_in_slash_append.
    + lia.
    + left. rewrite substring_all. now rewrite ends_in_slash_append.
Qed.

Lemma clean_loop_ok (n : nat) :
  forall (path : string) (rooted : bool),
    (String.length path < n)%nat ->
    (forall out dotdot,
        buffer_ok rooted out dotdot ->
        let result := clean_loop rooted path out dotdot in
        ends_in_slash result = false \/ rooted = true /\ result = "/")
    /\ (forall o dotdot,
           copying_ok rooted o dotdot ->
           let result :=
             copy_element (fun p' o' => clean_loop rooted p' o' dotdot) path o
           in
           ends_in_slash result = false \/ rooted = true /\ result = "/").
Proof.
  induction n as [|n IH]; intros path rooted Hlen; [lia |].
  destruct path as [|c path].
  - split; intros out dotdot Hok; cbn.
    + apply Hok.
    + left. apply Hok.
  - simpl in Hlen. destruct (IH path rooted ltac:(lia)) as [IHloop IHcopy].
    assert (Hcopy : forall o dotdot,
               copying_ok rooted o dotdot ->
               let result :=
                 copy_element (fun p' o' => clean_loop rooted p' o' dotdot)
                   (String c path) o in
               ends_in_slash result = false \/ rooted = true /\ result = "/").
    { intros o dotdot Hok. cbv zeta. rewrite copy_element_cons.
      destruct (Ascii.eqb c "/") eqn:Hc.
      - apply IHloop. now apply buffer_ok_copying.
      - apply IHcopy. now apply copying_ok_append. }
    split; [| exact Hcopy].
    intros out dotdot Hok. cbv zeta. rewrite clean_loop_cons.
    destruct (Ascii.eqb c "/") eqn:Hc; [now apply IHloop |].
    destruct (Ascii.eqb c "." && at_end path); [now apply IHloop |].
    destruct (Ascii.eqb c "." && _).
    + pose proof (buffer_ok_dotdot rooted out dotdot Hok) as Hdd.
      destruct (dotdot_element rooted out dotdot) as [out' dotdot'].
      destruct path as [|c2 path2]; cbn [strings.drop].
      * cbn. apply Hdd.
      * simpl in Hlen. destruct (IH path2 rooted ltac:(lia)) as [IHloop2 _].
        now apply IHloop2.
    + rewrite copy_element_cons, Hc. apply IHcopy.
      now apply copying_ok_start.
Qed.

Lemma Clean_no_trailing_slash (p : string) :
  ends_in_slash (Clean p) = true -> Clean p = "/".
Proof.
  unfold Clean. destruct p as [|c p]; [discriminate |].
  destruct (Ascii.eqb c "/").
  - destruct (clean_loop_ok (S (String.length p)) p true ltac:(lia))
      as [H _].
    specialize (H "/" 1%nat). cbv zeta in H.
    destruct H as [H | [_ H]].
    + repeat split; auto.
    + destruct (String.length _ =? 0)%nat; [discriminate | congruence].
    + rewrite H. reflexivity.
  - destruct (clean_loop_ok (S (S (String.length p))) (String c p) false
                ltac:(simpl; lia)) as [H _].
    specialize (H "" 0%nat). cbv zeta in H.
    destruct H as [H | [H _]]; [repeat split; auto | | discriminate].
    destruct (String.length _ =? 0)%nat; [discriminate | congruence].
Qed.

Lemma Join_no_trailing_slash (elem : list string) :
  ends_in_slash (Join elem) = true -> Join elem = "/".
Proof.
  unfold Join. destruct (_ =? 0)%nat; [discriminate |].
  apply Clean_no_trailing_slash.
Qed.

End TrailingSlash.

Section TrailingSlashProperties.

(** X18: a prefixed key ends in a slash only when it is the root [/]:
    whatever slash ends the key or the configured prefix is dropped. *)
Theorem KeyPrefix_drops_trailing_slash (s3 : S3) (key : string) :
  strings.HasSuffix (KeyPrefix s3 key) "/" = true -> KeyPrefix s3 key = "/".
Proof.
  rewrite HasSuffix_slash. apply Join_no_trailing_slash.
Qed.

Lemma KeyPrefix_drops_trailing_slash_witness :
  strings.HasSuffix (KeyPrefix (with_prefix "/") "") "/" = true
  /\ KeyPrefix (with_prefix "/") "" = "/".
Proof.
  split; [reflexivity |].
  apply (KeyPrefix_drops_trailing_slash (with_prefix "/") ""). reflexivity.
Defined.

(** X19: on the in-memory store, which like the object store answers
    [StatObject] with the key it was asked for, [Stat] reports
    [IsTerminal] false for every key whose prefixed key is not the root
    [/], whether the object exists or not and whether the store answers
    or fails. *)
Theorem Stat_never_terminal (s3 : S3) (ctx : Context) (key : string)
  (w : mem.World) :
  KeyPrefix s3 key <> "/" ->
  certmagic.IsTerminal (fst (snd (run mem.client (Stat s3 ctx key) w)))
  = false.
Proof.
  intros Hroot.
  assert (Hslash : strings.HasSuffix (KeyPrefix s3 key) "/" = false).
  { destruct (strings.HasSuffix (KeyPrefix s3 key) "/") eqn:H; [| reflexivity].
    rewrite HasSuffix_slash in H. now apply Join_no_trailing_slash in H. }
  pose proof (run_Stat mem.client s3 ctx key w) as H. cbv zeta in H.
  rewrite H. clear H. revert Hslash. generalize (KeyPrefix s3 key) as pk.
  intros pk Hslash. simpl (mem.client (StatObject _ _ _ _) _).
  destruct (mem.next_fault w) as [[e|] w1]; cbn [fst snd]; [reflexivity |].
  destruct (mem.objects w1 !! (Bucket s3, pk)); cbn [fst snd];
    [| reflexivity].
  cbn. exact Hslash.
Qed.

Lemma Stat_never_terminal_witness :
  KeyPrefix example_s3 "example.com/" <> "/"
  /\ certmagic.IsTerminal
       (fst (snd (run mem.client (Stat example_s3 Background "example.com/")
                    holding)))
     = false.
Proof.
  assert (H : KeyPrefix example_s3 "example.com/" <> "/")
    by (vm_compute; congruence).
  split; [exact H |].
  exact (Stat_never_terminal example_s3 Background "example.com/" holding H).
Defined.

End TrailingSlashProperties.
